(** * A type-erased dynamic array: vector.c / vector.h

    Shallow embedding of the vector of [src/vector.c].  The C code works on a
    [vector*] whose [inner] field points to a heap block of
    [capacity * elem_size] bytes.  Here

    - a [size_t] is a [Z] with its wrap-around modulo [2^64] written out;
    - a heap block is its identity (the address [malloc] gave it) together
      with its bytes and whether it has been freed, and a pointer into a
      block is an identity and an offset;
    - a [vector*] argument is an [option vector] ([None] is [NULL]) and the
      functions pass the pointed-to struct explicitly: they return the struct
      as the call leaves it;
    - what a call does is an [outcome]: it returns, it aborts the process
      ([abort()] or a failed [assert]; assertions are compiled in), or it has
      undefined behaviour (an access outside a block or to a freed block, a
      freed pointer handed to the allocator, a dereference of [NULL]);
    - the C library's allocator is not part of the program: each allocating
      call takes the allocator's answer as an argument ([alloc]). *)

From Stdlib Require Import ZArith Lia List Strings.Byte String.
From stdpp Require Import base tactics option list.

Local Open Scope Z_scope.

(** ** Machine integers *)

Definition SIZE_BITS : Z := 64.
Definition SIZE_MOD : Z := 2 ^ SIZE_BITS.

(** Arithmetic on [size_t] is modulo [SIZE_MOD]. *)
Definition wrap (z : Z) : Z := z mod SIZE_MOD.

(** A value a [size_t] variable can hold. *)
Definition is_size (z : Z) : Prop := 0 ≤ z < SIZE_MOD.

(** ** Outcomes of a call *)

Inductive outcome (A : Type) : Type :=
| Ret (a : A)
| Abort
| Undef.
Arguments Ret {A} a.
Arguments Abort {A}.
Arguments Undef {A}.

#[global] Instance outcome_ret : MRet outcome := λ A a, Ret a.
#[global] Instance outcome_bind : MBind outcome := λ A B f m,
  match m with
  | Ret a => f a
  | Abort => Abort
  | Undef => Undef
  end.

(** A memory access that must stay inside its block. *)
Definition defined {A} (o : option A) : outcome A :=
  match o with
  | Some a => Ret a
  | None => Undef
  end.

(** ** Heap blocks and pointers *)

Record block : Type :=
  MkBlock { blk_id : Z; blk_bytes : list byte; blk_freed : bool }.

(** A block that has not been freed. *)
Abbreviation Block id bytes := (MkBlock id bytes false).

(** The block after [free]: the pointer to it dangles. *)
Definition freed_block (b : block) : block :=
  MkBlock (blk_id b) (blk_bytes b) true.

Record ptr : Type := Ptr { ptr_blk : Z; ptr_off : Z }.

(** Reads [n] bytes at offset [off]. *)
Definition load (m : list byte) (off n : Z) : option (list byte) :=
  if (0 <=? off) && (0 <=? n) && (off + n <=? Z.of_nat (length m))
  then Some (take (Z.to_nat n) (drop (Z.to_nat off) m))
  else None.

(** Writes the bytes [src] at offset [off]. *)
Definition store (m : list byte) (off : Z) (src : list byte) : option (list byte) :=
  if (0 <=? off) && (off + Z.of_nat (length src) <=? Z.of_nat (length m))
  then Some (take (Z.to_nat off) m ++ src ++ drop (Z.to_nat off + length src) m)
  else None.

(** [memmove(m + dst, m + src, n)] inside one block: the source is read
    before the destination is written, so the two may overlap. *)
Definition memmove (m : list byte) (dst src n : Z) : option (list byte) :=
  bs ← load m src n; store m dst bs.

(** The same accesses through a pointer to the block [b]: there is nothing
    to read or write in a block that has been freed. *)
Definition live_bytes (b : block) : option (list byte) :=
  if blk_freed b then None else Some (blk_bytes b).

Definition bload (b : block) (off n : Z) : option (list byte) :=
  m ← live_bytes b; load m off n.

Definition bstore (b : block) (off : Z) (src : list byte) : option (list byte) :=
  m ← live_bytes b; store m off src.

Definition bmemmove (b : block) (dst src n : Z) : option (list byte) :=
  m ← live_bytes b; memmove m dst src n.

(** ** The C library's allocator

    The answer of the allocator to one request: no memory, or a fresh block
    at address [id] whose bytes, where the call does not define them, are
    [junk]. *)

Inductive alloc : Type :=
| NoMem
| Fresh (id : Z) (junk : nat → byte).

(** [malloc(size)]. *)
Definition malloc (size : Z) (a : alloc) : option block :=
  match a with
  | NoMem => None
  | Fresh id junk => Some (Block id (junk <$> seq 0 (Z.to_nat size)))
  end.

(** [calloc(nmemb, size)]: zero-filled, and [NULL] when [nmemb * size]
    overflows. *)
Definition calloc (nmemb size : Z) (a : alloc) : option block :=
  if SIZE_MOD <=? nmemb * size then None
  else match a with
       | NoMem => None
       | Fresh id _ => Some (Block id (replicate (Z.to_nat (nmemb * size)) x00))
       end.

(** What [reallocarray] did: it returned a new block and the old one is
    gone; it returned [NULL] and left the old block as it was; or it returned
    [NULL] and freed the old block. *)
Inductive realloc_answer : Type :=
| ReallocMoved (p : block)
| ReallocKept
| ReallocFreed.

(** [reallocarray(b, nmemb, size)], as glibc has it: [NULL] with the old
    block kept when [nmemb * size] overflows; otherwise it is
    [realloc(b, nmemb * size)], which for a size of zero frees the block and
    returns [NULL], and for another size returns [NULL] with the old block
    kept when there is no memory, or a block of that size that starts with
    the old bytes, as many as fit.  Calling [realloc] on a block that has
    been freed is undefined. *)
Definition reallocarray (b : block) (nmemb size : Z) (a : alloc)
  : outcome realloc_answer :=
  if SIZE_MOD <=? nmemb * size then Ret ReallocKept
  else if blk_freed b then Undef
  else if nmemb * size =? 0 then Ret ReallocFreed
  else match a with
       | NoMem => Ret ReallocKept
       | Fresh id junk =>
           let n := Z.to_nat (nmemb * size) in
           let old := blk_bytes b in
           Ret (ReallocMoved
                  (Block id (take n old ++ (junk <$> seq (length old) (n - length old)))))
       end.

(** ** The vector (vector.h) *)

Record vector : Type := Vector {
  inner : block;      (* void* inner *)
  capacity : Z;       (* size_t capacity *)
  len : Z;            (* size_t len *)
  elem_size : Z       (* size_t elem_size *)
}.

Definition set_inner (v : vector) (b : block) : vector :=
  Vector b (capacity v) (len v) (elem_size v).
Definition set_capacity (v : vector) (c : Z) : vector :=
  Vector (inner v) c (len v) (elem_size v).
Definition set_len (v : vector) (l : Z) : vector :=
  Vector (inner v) (capacity v) l (elem_size v).

(** Writing through a pointer into [inner] changes the bytes of the block,
    not the pointer. *)
Definition set_bytes (v : vector) (m : list byte) : vector :=
  set_inner v (MkBlock (blk_id (inner v)) m (blk_freed (inner v))).

(** [VEC_ADDR_OF(vec, index)], as an offset into [vec->inner]. *)
Definition VEC_ADDR_OF (v : vector) (index : Z) : Z :=
  wrap (index * elem_size v).

(** [vec->...] on a pointer the code has not checked. *)
Definition deref (vec : option vector) : outcome vector := defined vec.

(** [assert(vec != NULL)] followed by the uses of [vec]. *)
Definition assert_nonnull (vec : option vector) : outcome vector :=
  match vec with
  | Some v => Ret v
  | None => Abort
  end.

(** [vec_init]: [a_vec] tells whether [malloc(sizeof(vector))] succeeds,
    [a_inner] is the answer to the [calloc]. *)
Definition vec_init (init_capacity sizeof_type : Z) (a_vec : bool) (a_inner : alloc)
  : option vector :=
  if negb a_vec then None
  else match calloc init_capacity sizeof_type a_inner with
       | None => None
       | Some b => Some (Vector b init_capacity 0 sizeof_type)
       end.

Definition vec_validate_idx (vec : option vector) (index : Z) : outcome unit :=
  match vec with
  | None => Abort
  | Some v => if index <? len v then Ret () else Abort
  end.

Definition vec_resize (vec : option vector) (num_elements : Z) (a : alloc)
  : outcome (bool * vector) :=
  v ← assert_nonnull vec;
  ptr ← reallocarray (inner v) num_elements (elem_size v) a;
  match ptr with
  | ReallocKept => Ret (false, v)
  | ReallocFreed => Ret (false, set_inner v (freed_block (inner v)))
  | ReallocMoved p =>
      let v := set_capacity v num_elements in
      let v := if capacity v <? len v then set_len v (capacity v) else v in
      Ret (true, set_inner v p)
  end.

Definition vec_grow (vec : option vector) (a : alloc) : outcome (bool * vector) :=
  v ← assert_nonnull vec;
  let new_capacity := wrap (capacity v * 3) / 2 in
  if new_capacity <=? capacity v then Ret (false, v)
  else vec_resize (Some v) new_capacity a.

(** [element] is the memory the argument points to, outside the vector. *)
Definition vec_push (vec : option vector) (element : list byte) (a : alloc)
  : outcome (option ptr * vector) :=
  v ← assert_nonnull vec;
  '(failed, v) ← (if capacity v <=? len v
                  then '(ok, v') ← vec_grow (Some v) a; Ret (negb ok, v')
                  else Ret (false, v));
  if (failed : bool) then Ret (None, v)
  else
    bs ← defined (load element 0 (elem_size v));
    m ← defined (bstore (inner v) (VEC_ADDR_OF v (len v)) bs);
    let mem := Ptr (blk_id (inner v)) (VEC_ADDR_OF v (len v)) in
    Ret (Some mem, set_len (set_bytes v m) (wrap (len v + 1))).

(** The popped element is a block of its own, which the caller owns. *)
Definition vec_pop (vec : option vector) (a : alloc)
  : outcome (option block * vector) :=
  v ← assert_nonnull vec;
  if len v =? 0 then Ret (None, v)
  else match malloc (elem_size v) a with
       | None => Ret (None, v)
       | Some element =>
           bs ← defined (bload (inner v)
                              (VEC_ADDR_OF v (wrap (len v - 1))) (elem_size v));
           m ← defined (store (blk_bytes element) 0 bs);
           Ret (Some (Block (blk_id element) m), set_len v (wrap (len v - 1)))
       end.

Definition vec_get (vec : option vector) (index : Z) : outcome ptr :=
  _ ← vec_validate_idx vec index;
  v ← deref vec;
  Ret (Ptr (blk_id (inner v)) (VEC_ADDR_OF v index)).

Definition vec_remove (vec : option vector) (index : Z) : outcome vector :=
  _ ← vec_validate_idx vec index;
  v ← deref vec;
  m ← (if negb (index =? wrap (len v - 1))
       then
         let nbytes := wrap (wrap (len v - 1) - index) in
         let nbytes := wrap (nbytes * elem_size v) in
         defined (bmemmove (inner v)
                           (VEC_ADDR_OF v index) (VEC_ADDR_OF v (wrap (index + 1))) nbytes)
       else Ret (blk_bytes (inner v)));
  Ret (set_len (set_bytes v m) (wrap (len v - 1))).

Definition vec_swap_remove (vec : option vector) (index : Z) : outcome vector :=
  _ ← vec_validate_idx vec index;
  v ← deref vec;
  m ← (if 2 <=? len v
       then defined (bmemmove (inner v)
                              (VEC_ADDR_OF v index) (VEC_ADDR_OF v (wrap (len v - 1)))
                              (elem_size v))
       else Ret (blk_bytes (inner v)));
  Ret (set_len (set_bytes v m) (wrap (len v - 1))).

Definition vec_clear (vec : option vector) : outcome vector :=
  v ← deref vec;
  Ret (set_len v 0).

(** [vec_leak(vector** vec)]: the argument is a pointer to the caller's
    handle; the result is the leaked block and the handle as the call leaves
    it. *)
Definition vec_leak (vec : option (option vector)) : outcome (block * option vector) :=
  match vec with
  | Some (Some local_vec) => Ret (inner local_vec, None)
  | _ => Abort
  end.

Definition vec_to_str (vec : option (option vector)) (a : alloc)
  : outcome (block * option vector) :=
  match vec with
  | Some (Some local_vec) =>
      let len' := wrap (len local_vec + 1) in
      '(_, local_vec) ← vec_resize (Some local_vec) len' a;
      '(str, h) ← vec_leak (Some (Some local_vec));
      m ← defined (bstore str (wrap (len' - 1)) [x00]);
      Ret (Block (blk_id str) m, h)
  | _ => Abort
  end.

Definition vec_clone_str (vec : option vector) (a : alloc)
  : outcome (option block * vector) :=
  v ← assert_nonnull vec;
  match malloc (wrap ((len v + 1) * 1)) a with
  | None => Ret (None, v)
  | Some str =>
      bs ← defined (bload (inner v) 0 (len v));
      m ← defined (store (blk_bytes str) 0 bs);
      m ← defined (store m (len v) [x00]);
      Ret (Some (Block (blk_id str) m), v)
  end.

(** ** Well-formed vectors and their slots *)

(** The data invariant of a vector: the fields are [size_t] values, the
    length is within the capacity, and [inner] is a block of exactly
    [capacity * elem_size] bytes (a size the allocator accepted) that has not
    been freed. *)
Record wf (v : vector) : Prop := Wf {
  wf_len : 0 ≤ len v ≤ capacity v;
  wf_capacity : capacity v < SIZE_MOD;
  wf_elem_size : is_size (elem_size v);
  wf_total : capacity v * elem_size v < SIZE_MOD;
  wf_bytes : Z.of_nat (length (blk_bytes (inner v))) = capacity v * elem_size v;
  wf_live : blk_freed (inner v) = false
}.

(** The bytes of slot [j]. *)
Definition slot (v : vector) (j : Z) : option (list byte) :=
  load (blk_bytes (inner v)) (j * elem_size v) (elem_size v).

(** The pointer to slot [j]. *)
Definition slot_ptr (v : vector) (j : Z) : ptr :=
  Ptr (blk_id (inner v)) (j * elem_size v).

(** ** Sequences of operations on one vector *)

Inductive op : Type :=
| OpGrow (a : alloc)
| OpResize (num_elements : Z) (a : alloc)
| OpPush (element : list byte) (a : alloc)
| OpPop (a : alloc)
| OpRemove (index : Z)
| OpSwapRemove (index : Z)
| OpClear.

(** The [size_t] arguments of an operation are [size_t] values. *)
Definition op_ok (o : op) : Prop :=
  match o with
  | OpResize n _ => is_size n
  | OpRemove i | OpSwapRemove i => is_size i
  | _ => True
  end.

(** One call on the vector [v]; the value the call returns is dropped. *)
Definition step (v : vector) (o : op) : outcome vector :=
  match o with
  | OpGrow a => '(_, v') ← vec_grow (Some v) a; Ret v'
  | OpResize n a => '(_, v') ← vec_resize (Some v) n a; Ret v'
  | OpPush element a => '(_, v') ← vec_push (Some v) element a; Ret v'
  | OpPop a => '(_, v') ← vec_pop (Some v) a; Ret v'
  | OpRemove i => vec_remove (Some v) i
  | OpSwapRemove i => vec_swap_remove (Some v) i
  | OpClear => vec_clear (Some v)
  end.

Fixpoint run (v : vector) (ops : list op) : outcome vector :=
  match ops with
  | [] => Ret v
  | o :: ops' => v' ← step v o; run v' ops'
  end.

(** Growth is forced once per allocator answer, until it first fails; the
    result lists the capacities reached. *)
Fixpoint forced_growth (v : vector) (answers : list alloc) : list Z :=
  match answers with
  | [] => []
  | a :: answers' =>
      match vec_grow (Some v) a with
      | Ret (true, v') => capacity v' :: forced_growth v' answers'
      | _ => []
      end
  end.


(** ** Predicates of the statements *)

(** The handle is [NULL] or the index is not below the length. *)
Definition invalid_index (vec : option vector) (index : Z) : Prop :=
  vec = None ∨ ∃ v, vec = Some v ∧ len v ≤ index.

(** The vector after the bytes [m] replaced those of the block in the write
    of slot [len v]. *)
Definition pushed (v : vector) (m : list byte) : vector :=
  set_len (set_bytes v m) (len v + 1).

(** The vector a successful [vec_resize] leaves. *)
Definition resized (v : vector) (p : block) (num_elements : Z) : vector :=
  Vector p num_elements
         (if num_elements <? len v then num_elements else len v) (elem_size v).

(** The backing store of [v'] is the one of [v]: same capacity and element
    size, the same block at the same address, of the same size. *)
Definition same_store (v v' : vector) : Prop :=
  capacity v' = capacity v ∧ elem_size v' = elem_size v ∧
  blk_id (inner v') = blk_id (inner v) ∧
  length (blk_bytes (inner v')) = length (blk_bytes (inner v)).

(** ** Elements, pointers, loops of pushes, [vec_free] *)

(** The elements of a vector: the bytes of its slots [0 .. len - 1]. *)
Definition elements (v : vector) : list (list byte) :=
  (λ j, default [] (slot v j)) <$> seqZ 0 (len v).

(** Reading [n] bytes through a pointer, while [b] is the block it points
    into. *)
Definition read (b : block) (p : ptr) (n : Z) : option (list byte) :=
  if ptr_blk p =? blk_id b then bload b (ptr_off p) n else None.




Definition no_resize (o : op) : Prop :=
  match o with
  | OpResize _ _ => False
  | _ => True
  end.



(** ** Growth with memory, and vectors whose block is gone *)


(** What holds of a vector after any calls: it is well formed, or
    [reallocarray] has freed its block and left the fields. *)
Definition sound (v : vector) : Prop :=
  wf v ∨
  (blk_freed (inner v) = true ∧ 0 ≤ len v ≤ capacity v ∧ capacity v < SIZE_MOD).

(** No call asks for a capacity of zero. *)
Definition op_nonzero (o : op) : Prop :=
  match o with
  | OpResize n _ => n ≠ 0
  | _ => True
  end.

(** ** Concrete vectors *)

(** Uninitialised memory, for the instances below. *)
Definition junk_ff : nat → byte := λ _, xff.

(** A full vector of bytes that holds "abc". *)
Definition v_abc : vector :=
  Vector (Block 16 (list_byte_of_string "abc")) 3 3 1.

(** A vector of two-byte elements "ab", "cd", "ef", with room for a
    fourth. *)
Definition v_pairs : vector :=
  Vector (Block 16 (list_byte_of_string "abcdef" ++ [x00; x00])) 4 3 2.

(** A run from [vec_init]: three pushes, the third after a growth, then a
    removal, a pop, a push, a resize below the length, a swap-removal, a
    growth that fails and a clear. *)
Definition ops_example : list op :=
  [OpPush [x61] NoMem; OpPush [x62] NoMem; OpPush [x63] (Fresh 17 junk_ff);
   OpRemove 0; OpPop (Fresh 18 junk_ff); OpPush [x64] NoMem;
   OpResize 1 (Fresh 19 junk_ff); OpSwapRemove 0; OpGrow NoMem; OpClear].

(** An empty vector of bytes of capacity 2, as [vec_init] returns it. *)
Definition v_empty2 : vector := Vector (Block 16 [x00; x00]) 2 0 1.

(** An empty vector of bytes of capacity 1. *)
Definition v_one : vector := Vector (Block 16 [x00]) 1 0 1.

(** Two pushes and a growth, with memory at hand for each. *)
Definition ops_small : list op :=
  [OpPush [x61] (Fresh 17 junk_ff); OpPush [x62] (Fresh 18 junk_ff);
   OpGrow (Fresh 19 junk_ff)].


(** A full vector of three elements of no bytes. *)
Definition v_zero : vector := Vector (Block 16 []) 3 3 0.

(** * Properties *)

(** ** Arithmetic on [size_t] *)

Lemma SIZE_MOD_val : SIZE_MOD = 18446744073709551616.
Proof. reflexivity. Qed.

Lemma wrap_small z : is_size z → wrap z = z.
Proof. intros Hz. unfold wrap. apply Z.mod_small. exact Hz. Qed.

#[global] Opaque SIZE_MOD.


(** The test of [vec_grow] on the wrapped product: it lets through exactly
    the capacities from 2 on whose product does not wrap. *)
Lemma grow_guard c :
  is_size c →
  (wrap (c * 3) / 2 <=? c) = false ↔ 2 ≤ c ∧ c * 3 < SIZE_MOD.
Proof.
  intros Hc. rewrite Z.leb_gt. unfold wrap. pose proof SIZE_MOD_val as HM.
  unfold is_size in Hc. split.
  - intros Hlt.
    destruct (Z_lt_ge_dec (c * 3) SIZE_MOD) as [Hs|Hb].
    + split; [|lia]. rewrite Z.mod_small in Hlt by lia.
      destruct (Z_lt_ge_dec c 2); [|lia].
      assert (c * 3 / 2 < c + 1); [|lia].
      apply Z.div_lt_upper_bound; lia.
    + exfalso.
      destruct (Z_lt_ge_dec (c * 3) (2 * SIZE_MOD)) as [H2|H2].
      * replace (c * 3) with ((c * 3 - SIZE_MOD) + 1 * SIZE_MOD) in Hlt by lia.
        rewrite Z.mod_add, Z.mod_small in Hlt by lia.
        assert ((c * 3 - SIZE_MOD) / 2 ≤ c); [|lia].
        apply Z.div_le_upper_bound; lia.
      * replace (c * 3) with ((c * 3 - 2 * SIZE_MOD) + 2 * SIZE_MOD) in Hlt by lia.
        rewrite Z.mod_add, Z.mod_small in Hlt by lia.
        assert ((c * 3 - 2 * SIZE_MOD) / 2 ≤ c); [|lia].
        apply Z.div_le_upper_bound; lia.
  - intros [H2 Hs]. rewrite Z.mod_small by lia.
    assert (c + 1 ≤ c * 3 / 2); [|lia].
    apply Z.div_le_lower_bound; lia.
Qed.

Lemma grow_guard_value c :
  2 ≤ c → c * 3 < SIZE_MOD → wrap (c * 3) / 2 = c * 3 / 2 ∧ c < c * 3 / 2.
Proof.
  intros H2 Hs. pose proof SIZE_MOD_val. unfold wrap.
  rewrite Z.mod_small by lia. split; [done|].
  assert (c + 1 ≤ c * 3 / 2); [|lia].
  apply Z.div_le_lower_bound; lia.
Qed.

(** The new capacity is again a [size_t] value. *)
Lemma grow_target_size c :
  0 ≤ c → c * 3 < SIZE_MOD → is_size (c * 3 / 2).
Proof.
  intros H0 Hs. pose proof SIZE_MOD_val. unfold is_size. split.
  - apply Z.div_pos; lia.
  - apply Z.div_lt_upper_bound; lia.
Qed.

(** ** Reading and writing blocks *)

Section memory.
Implicit Types (m src bs : list byte) (off n : Z).

Lemma load_Some m off n :
  0 ≤ off → 0 ≤ n → off + n ≤ Z.of_nat (length m) →
  load m off n = Some (take (Z.to_nat n) (drop (Z.to_nat off) m)).
Proof.
  intros H1 H2 H3. unfold load.
  rewrite (proj2 (Z.leb_le 0 off)), (proj2 (Z.leb_le 0 n)) by done.
  rewrite (proj2 (Z.leb_le _ _)) by done. done.
Qed.

Lemma load_inv m off n bs :
  load m off n = Some bs →
  0 ≤ off ∧ 0 ≤ n ∧ off + n ≤ Z.of_nat (length m) ∧
  bs = take (Z.to_nat n) (drop (Z.to_nat off) m) ∧ Z.of_nat (length bs) = n.
Proof.
  unfold load. intros H.
  destruct (0 <=? off) eqn:E1; [|done].
  destruct (0 <=? n) eqn:E2; [|done].
  destruct (off + n <=? Z.of_nat (length m)) eqn:E3; [|done].
  apply Z.leb_le in E1, E2, E3. simpl in H. injection H as <-.
  repeat split; try done. rewrite length_take, length_drop. lia.
Qed.

Lemma store_Some m off src :
  0 ≤ off → off + Z.of_nat (length src) ≤ Z.of_nat (length m) →
  store m off src
  = Some (take (Z.to_nat off) m ++ src ++ drop (Z.to_nat off + length src) m).
Proof.
  intros H1 H2. unfold store.
  rewrite (proj2 (Z.leb_le 0 off)), (proj2 (Z.leb_le _ _)) by done. done.
Qed.

Lemma store_inv m off src m' :
  store m off src = Some m' →
  0 ≤ off ∧ off + Z.of_nat (length src) ≤ Z.of_nat (length m) ∧
  m' = take (Z.to_nat off) m ++ src ++ drop (Z.to_nat off + length src) m.
Proof.
  unfold store. intros H.
  destruct (0 <=? off) eqn:E1; [|done].
  destruct (off + Z.of_nat (length src) <=? Z.of_nat (length m)) eqn:E2; [|done].
  apply Z.leb_le in E1, E2. simpl in H. injection H as <-. done.
Qed.

Lemma store_length m off src m' :
  store m off src = Some m' → length m' = length m.
Proof.
  intros (H1 & H2 & ->)%store_inv.
  rewrite !length_app, length_take, length_drop. lia.
Qed.

(** Below the written range nothing changes. *)
Lemma store_lookup_lt m off src m' (i : nat) :
  store m off src = Some m' → (i < Z.to_nat off)%nat → m' !! i = m !! i.
Proof.
  intros (H1 & H2 & ->)%store_inv Hi.
  rewrite lookup_app_l by (rewrite length_take; lia).
  by rewrite lookup_take_lt.
Qed.

(** From the end of the written range on nothing changes. *)
Lemma store_lookup_ge m off src m' (i : nat) :
  store m off src = Some m' → (Z.to_nat off + length src ≤ i)%nat →
  m' !! i = m !! i.
Proof.
  intros (H1 & H2 & ->)%store_inv Hi.
  rewrite lookup_app_r by (rewrite length_take; lia).
  rewrite length_take, lookup_app_r by lia.
  rewrite lookup_drop. f_equal. lia.
Qed.

(** The written range holds [src]. *)
Lemma store_lookup_in m off src m' (k : nat) :
  store m off src = Some m' → (k < length src)%nat →
  m' !! (Z.to_nat off + k)%nat = src !! k.
Proof.
  intros (H1 & H2 & ->)%store_inv Hk.
  rewrite lookup_app_r by (rewrite length_take; lia).
  rewrite length_take, lookup_app_l by lia.
  f_equal. lia.
Qed.

(** Reading a range is reading each of its bytes. *)
Lemma load_lookup m off n bs (k : nat) :
  load m off n = Some bs → (k < Z.to_nat n)%nat →
  bs !! k = m !! (Z.to_nat off + k)%nat.
Proof.
  intros (H1 & H2 & H3 & -> & _)%load_inv Hk.
  by rewrite lookup_take_lt, lookup_drop.
Qed.

(** Two blocks that agree on a range load the same bytes from it. *)
Lemma load_ext m m' off n :
  length m' = length m →
  (∀ i : nat, (Z.to_nat off ≤ i < Z.to_nat off + Z.to_nat n)%nat → m' !! i = m !! i) →
  load m' off n = load m off n.
Proof.
  intros Hlen Hext. unfold load. rewrite Hlen.
  destruct (_ && _); [|done]. f_equal.
  apply list_eq. intros k.
  destruct (decide (k < Z.to_nat n)%nat).
  - rewrite !lookup_take_lt, !lookup_drop by done. apply Hext. lia.
  - by rewrite !lookup_take_ge by lia.
Qed.

Lemma load_store_same m off src m' :
  store m off src = Some m' → load m' off (Z.of_nat (length src)) = Some src.
Proof.
  intros H. pose proof (store_length _ _ _ _ H) as Hlen.
  pose proof (store_inv _ _ _ _ H) as (H1 & H2 & _).
  rewrite load_Some by lia. f_equal.
  apply list_eq. intros k. rewrite Nat2Z.id.
  destruct (decide (k < length src)%nat).
  - rewrite lookup_take_lt, lookup_drop by done. by eapply store_lookup_in.
  - rewrite lookup_take_ge by lia. symmetry. apply lookup_ge_None. lia.
Qed.

Lemma load_store_other m off src m' off' n :
  store m off src = Some m' →
  off' + n ≤ off ∨ off + Z.of_nat (length src) ≤ off' →
  load m' off' n = load m off' n.
Proof.
  intros H Hdisj. pose proof (store_inv _ _ _ _ H) as (H1 & H2 & _).
  destruct (Z_lt_ge_dec off' 0) as [Hneg|Hoff'].
  { unfold load. by rewrite (proj2 (Z.leb_gt 0 off')). }
  destruct (Z_lt_ge_dec n 0) as [Hneg|Hn].
  { unfold load. by rewrite (proj2 (Z.leb_gt 0 n)), andb_false_r. }
  apply load_ext; [by eapply store_length|].
  intros i Hi. destruct Hdisj.
  - eapply store_lookup_lt; [done|]. lia.
  - eapply store_lookup_ge; [done|]. lia.
Qed.

(** Writing back what is there changes nothing. *)
Lemma store_load_id m off n bs :
  load m off n = Some bs → store m off bs = Some m.
Proof.
  intros H. pose proof (load_inv _ _ _ _ H) as (H1 & H2 & H3 & Hbs & Hlen).
  rewrite store_Some by lia. f_equal.
  replace (Z.to_nat off + length bs)%nat with (Z.to_nat off + Z.to_nat n)%nat by lia.
  rewrite Hbs, <- (drop_drop m (Z.to_nat n) (Z.to_nat off)).
  by rewrite !take_drop.
Qed.
End memory.

(** ** Accesses to a block *)

Lemma bload_live b off n :
  blk_freed b = false → bload b off n = load (blk_bytes b) off n.
Proof. unfold bload, live_bytes. by intros ->. Qed.

Lemma bstore_live b off src :
  blk_freed b = false → bstore b off src = store (blk_bytes b) off src.
Proof. unfold bstore, live_bytes. by intros ->. Qed.

Lemma bmemmove_live b dst src n :
  blk_freed b = false → bmemmove b dst src n = memmove (blk_bytes b) dst src n.
Proof. unfold bmemmove, live_bytes. by intros ->. Qed.

(** An access that went well was to a block that has not been freed. *)
Lemma bload_inv b off n bs :
  bload b off n = Some bs →
  blk_freed b = false ∧ load (blk_bytes b) off n = Some bs.
Proof. unfold bload, live_bytes. by destruct (blk_freed b). Qed.

Lemma bstore_inv b off src m :
  bstore b off src = Some m →
  blk_freed b = false ∧ store (blk_bytes b) off src = Some m.
Proof. unfold bstore, live_bytes. by destruct (blk_freed b). Qed.

Lemma bmemmove_inv b dst src n m :
  bmemmove b dst src n = Some m →
  blk_freed b = false ∧ memmove (blk_bytes b) dst src n = Some m.
Proof. unfold bmemmove, live_bytes. by destruct (blk_freed b). Qed.

(** ** Bounds validation: [vec_validate_idx], [vec_get] *)

Lemma vec_validate_idx_Abort vec index :
  vec_validate_idx vec index = Abort ↔ invalid_index vec index.
Proof.
  unfold vec_validate_idx, invalid_index. destruct vec as [v|].
  - destruct (index <? len v) eqn:E.
    + apply Z.ltb_lt in E. split; [done|].
      intros [?|(v' & [= <-] & ?)]; [done|lia].
    + apply Z.ltb_ge in E. split; [|done]. intros _. right. by exists v.
  - split; [by left|done].
Qed.

Lemma vec_validate_idx_Ret vec index :
  vec_validate_idx vec index = Ret () ↔ ∃ v, vec = Some v ∧ index < len v.
Proof.
  unfold vec_validate_idx. destruct vec as [v|].
  - destruct (index <? len v) eqn:E.
    + apply Z.ltb_lt in E. split; [by exists v|done].
    + apply Z.ltb_ge in E. split; [done|]. intros (v' & [= <-] & ?). lia.
  - split; [done|]. by intros (? & ? & _).
Qed.

(** After the check, a call either aborted in it or went on with the
    vector. *)
Lemma validated_cases vec index :
  (vec_validate_idx vec index = Abort ∧ invalid_index vec index) ∨
  (∃ v, vec = Some v ∧ index < len v ∧ vec_validate_idx vec index = Ret ()).
Proof.
  destruct (vec_validate_idx vec index) as [[]| |] eqn:E.
  - right. apply vec_validate_idx_Ret in E as (v & -> & ?).
    exists v. repeat split; done.
  - left. split; [done|]. by apply vec_validate_idx_Abort.
  - unfold vec_validate_idx in E. destruct vec; [|done].
    by destruct (_ <? _).
Qed.

(** C5: [vec_get], [vec_remove] and [vec_swap_remove] (and the check they
    share) abort exactly when the handle is [NULL] or the index is greater
    than or equal to the length, the index equal to the length included; with
    a valid handle and an index below the length the check returns and
    [vec_get] returns the pointer to the slot. *)
Theorem indexing_aborts_iff_invalid (vec : option vector) (index : Z) :
  (vec_validate_idx vec index = Abort ↔ invalid_index vec index) ∧
  (vec_get vec index = Abort ↔ invalid_index vec index) ∧
  (vec_remove vec index = Abort ↔ invalid_index vec index) ∧
  (vec_swap_remove vec index = Abort ↔ invalid_index vec index) ∧
  (invalid_index vec (match vec with Some v => len v | None => index end)) ∧
  (¬ invalid_index vec index →
   vec_validate_idx vec index = Ret () ∧ ∃ p, vec_get vec index = Ret p).
Proof.
  split; [apply vec_validate_idx_Abort|].
  unfold vec_get, vec_remove, vec_swap_remove.
  destruct (validated_cases vec index) as [[E Hinv]|(v & -> & Hlt & E)].
  - rewrite E. simpl. repeat split; try done.
    destruct vec as [v|]; [right; by exists v|by left].
  - assert (¬ invalid_index (Some v) index) as Hvalid.
    { intros [?|(v' & [= <-] & ?)]; [done|lia]. }
    rewrite E. simpl. repeat split; try done.
    + destruct (negb _); simpl; [|done]. by destruct (bmemmove _ _ _ _).
    + destruct (2 <=? len v); simpl; [|done]. by destruct (bmemmove _ _ _ _).
    + right. exists v. split; [done|lia].
    + by eexists.
Qed.

(** ** Resizing: [vec_resize] *)

Lemma load_agree (m m' : list byte) (off n : Z) :
  off + n ≤ Z.of_nat (length m) → off + n ≤ Z.of_nat (length m') →
  (∀ i : nat, (Z.to_nat off ≤ i < Z.to_nat off + Z.to_nat n)%nat → m' !! i = m !! i) →
  load m' off n = load m off n.
Proof.
  intros Hm Hm' Hext. unfold load.
  rewrite (proj2 (Z.leb_le _ _) Hm), (proj2 (Z.leb_le _ _) Hm').
  destruct (_ && _); [|done]. simpl. f_equal.
  apply list_eq. intros k.
  destruct (decide (k < Z.to_nat n)%nat).
  - rewrite !lookup_take_lt, !lookup_drop by done. apply Hext. lia.
  - by rewrite !lookup_take_ge by lia.
Qed.

(** A zero-byte request frees the block. *)
Lemma reallocarray_zero b nmemb size a :
  blk_freed b = false → nmemb * size = 0 →
  reallocarray b nmemb size a = Ret ReallocFreed.
Proof.
  intros Hlive Hz. unfold reallocarray. rewrite Hz, Hlive.
  pose proof SIZE_MOD_val. by rewrite (proj2 (Z.leb_gt SIZE_MOD 0)) by lia.
Qed.

(** A request for some bytes fails exactly on overflow or without memory. *)
Lemma reallocarray_nonzero b nmemb size a :
  blk_freed b = false → nmemb * size ≠ 0 →
  (reallocarray b nmemb size a = Ret ReallocKept ∧
   (SIZE_MOD ≤ nmemb * size ∨ a = NoMem)) ∨
  (∃ p, reallocarray b nmemb size a = Ret (ReallocMoved p) ∧
        nmemb * size < SIZE_MOD ∧ a ≠ NoMem).
Proof.
  intros Hlive Hnz. unfold reallocarray.
  destruct (SIZE_MOD <=? nmemb * size) eqn:E.
  { apply Z.leb_le in E. left. split; [done|by left]. }
  apply Z.leb_gt in E. rewrite Hlive, (proj2 (Z.eqb_neq _ _) Hnz).
  destruct a as [|id junk]; [left; split; [done|by right]|].
  right. eexists. by split_and!.
Qed.

Lemma reallocarray_Moved b nmemb size a p :
  reallocarray b nmemb size a = Ret (ReallocMoved p) →
  nmemb * size < SIZE_MOD ∧ nmemb * size ≠ 0 ∧ a ≠ NoMem ∧
  blk_freed b = false ∧ blk_freed p = false ∧
  length (blk_bytes p) = Z.to_nat (nmemb * size) ∧
  ∀ i : nat, (i < length (blk_bytes b))%nat → (i < Z.to_nat (nmemb * size))%nat →
             blk_bytes p !! i = blk_bytes b !! i.
Proof.
  unfold reallocarray. destruct (SIZE_MOD <=? nmemb * size) eqn:E; [done|].
  apply Z.leb_gt in E. destruct (blk_freed b); [done|].
  destruct (nmemb * size =? 0) eqn:Ez; [done|]. apply Z.eqb_neq in Ez.
  destruct a as [|id junk]; [done|].
  intros [= <-]. simpl. split_and!; try done.
  - rewrite length_app, length_take, length_fmap, length_seq. lia.
  - intros i Hi Hn. rewrite lookup_app_l by (rewrite length_take; lia).
    by rewrite lookup_take_lt.
Qed.

Lemma reallocarray_Freed b nmemb size a :
  reallocarray b nmemb size a = Ret ReallocFreed →
  blk_freed b = false ∧ nmemb * size = 0.
Proof.
  unfold reallocarray. destruct (SIZE_MOD <=? nmemb * size) eqn:E; [done|].
  destruct (blk_freed b); [done|].
  destruct (nmemb * size =? 0) eqn:Ez; [|by destruct a].
  apply Z.eqb_eq in Ez. by intros _.
Qed.

(** [vec_resize] in one step: the struct it leaves. *)
Lemma vec_resize_eq v num_elements a :
  vec_resize (Some v) num_elements a
  = ptr ← reallocarray (inner v) num_elements (elem_size v) a;
    match ptr with
    | ReallocKept => Ret (false, v)
    | ReallocFreed => Ret (false, set_inner v (freed_block (inner v)))
    | ReallocMoved p => Ret (true, resized v p num_elements)
    end.
Proof.
  unfold vec_resize. simpl.
  destruct (reallocarray _ _ _ _) as [[p| |]| |]; try done. simpl.
  unfold resized. by destruct (num_elements <? len v).
Qed.

(** When [reallocarray] returned a block, the vector is again well formed
    and the bytes, hence the slots, below both capacities are kept. *)
Lemma vec_resize_success v num_elements a p :
  wf v → is_size num_elements →
  reallocarray (inner v) num_elements (elem_size v) a = Ret (ReallocMoved p) →
  wf (resized v p num_elements) ∧
  (∀ i : nat, Z.of_nat i < Z.min (capacity v) num_elements * elem_size v →
              blk_bytes p !! i = blk_bytes (inner v) !! i) ∧
  (∀ j, 0 ≤ j < Z.min (capacity v) num_elements →
        slot (resized v p num_elements) j = slot v j).
Proof.
  intros [Hlen Hcap Hes Htot Hbytes Hlive] Hn E.
  apply reallocarray_Moved in E as (Hsz & _ & _ & _ & Hplive & Hplen & Hpre).
  assert (∀ i : nat,
    Z.of_nat i < Z.min (capacity v) num_elements * elem_size v →
    blk_bytes p !! i = blk_bytes (inner v) !! i) as Hkeep.
  { intros i Hi. apply Hpre; unfold is_size in *; nia. }
  unfold is_size in *. split; [|split; [done|]].
  - constructor; simpl; try done.
    + destruct (num_elements <? len v) eqn:El;
        [apply Z.ltb_lt in El|apply Z.ltb_ge in El]; lia.
    + lia.
    + rewrite Hplen. nia.
  - intros j Hj. unfold slot. simpl. apply load_agree.
    + rewrite Hbytes. nia.
    + rewrite Hplen. nia.
    + intros i Hi. apply Hkeep. nia.
Qed.

(** What a call of [vec_resize] that returned has done: a failure left the
    vector, or, for a request of zero bytes, freed its block. *)
Lemma vec_resize_Ret v num_elements a ok v' :
  wf v → is_size num_elements →
  vec_resize (Some v) num_elements a = Ret (ok, v') →
  if ok
  then wf v' ∧ capacity v' = num_elements ∧ elem_size v' = elem_size v ∧
       len v' = Z.min (len v) num_elements ∧
       (∀ j, 0 ≤ j < Z.min (capacity v) num_elements → slot v' j = slot v j)
  else v' = v ∨
       (num_elements * elem_size v = 0 ∧
        v' = set_inner v (freed_block (inner v))).
Proof.
  intros Hwf Hn. rewrite vec_resize_eq.
  destruct (reallocarray _ _ _ _) as [[p| |]| |] eqn:E; try done; simpl.
  - intros [= <- <-].
    destruct (vec_resize_success v num_elements a p Hwf Hn E) as (Hwf' & _ & Hslots).
    split_and!; try done. simpl.
    destruct (_ <? _) eqn:El; [apply Z.ltb_lt in El|apply Z.ltb_ge in El]; lia.
  - intros [= <- <-]. by left.
  - intros [= <- <-]. right. by apply reallocarray_Freed in E as [_ ?].
Qed.

(** A vector whose block has been freed is not the vector it was. *)
Lemma freed_block_neq v :
  blk_freed (inner v) = false → set_inner v (freed_block (inner v)) ≠ v.
Proof. intros Hlive Heq. apply (f_equal (λ w, blk_freed (inner w))) in Heq. simpl in Heq. congruence. Qed.

(** C3, at the input where the code departs from it: asked for a capacity
    of zero, [vec_resize] hands [reallocarray] a request of zero bytes, which
    frees the block and returns [NULL]; [vec_resize] takes this for a
    failure that left the block, and returns [false] with [inner] pointing
    to the freed block.  The vector is not as it was: the next
    [vec_resize], whatever it asks for that does not overflow, hands the
    freed pointer to [reallocarray]. *)
Theorem vec_resize_zero_frees (a : alloc) :
  vec_resize (Some v_abc) 0 a
  = Ret (false, Vector (MkBlock 16 (list_byte_of_string "abc") true) 3 3 1) ∧
  Vector (MkBlock 16 (list_byte_of_string "abc") true) 3 3 1 ≠ v_abc ∧
  ∀ num_elements a',
    0 ≤ num_elements < SIZE_MOD →
    vec_resize
      (Some (Vector (MkBlock 16 (list_byte_of_string "abc") true) 3 3 1))
      num_elements a' = Undef.
Proof.
  split_and!.
  - rewrite vec_resize_eq. by rewrite reallocarray_zero.
  - intros [=].
  - intros n a' Hn. rewrite vec_resize_eq. unfold reallocarray. simpl.
    by rewrite Z.mul_1_r, (proj2 (Z.leb_gt SIZE_MOD n)) by lia.
Qed.

(** X16: asked for a capacity whose size in bytes is not zero,
    [vec_resize] on a well-formed vector always returns.  It returns failure
    exactly when [num_elements * elem_size] overflows or the allocator has
    no memory, and then the vector is as it was.  On success the capacity is
    [num_elements], the length is truncated to it when it was larger, and
    every byte, hence every slot, below both the old and the new capacity is
    as before. *)
Theorem vec_resize_nonzero_spec (v : vector) (num_elements : Z) (a : alloc) :
  wf v → is_size num_elements → num_elements * elem_size v ≠ 0 →
  ∃ ok v',
    vec_resize (Some v) num_elements a = Ret (ok, v') ∧
    (ok = false ↔ SIZE_MOD ≤ num_elements * elem_size v ∨ a = NoMem) ∧
    (ok = false → v' = v) ∧
    (ok = true →
     capacity v' = num_elements ∧
     len v' = (if num_elements <? len v then num_elements else len v) ∧
     elem_size v' = elem_size v ∧
     wf v' ∧
     (∀ i : nat, Z.of_nat i < Z.min (capacity v) num_elements * elem_size v →
                 blk_bytes (inner v') !! i = blk_bytes (inner v) !! i) ∧
     (∀ j, 0 ≤ j < Z.min (capacity v) num_elements → slot v' j = slot v j)).
Proof.
  intros Hwf Hn Hnz. pose proof Hwf as [_ _ _ _ _ Hlive].
  rewrite vec_resize_eq.
  destruct (reallocarray_nonzero (inner v) num_elements (elem_size v) a Hlive Hnz)
    as [[E Hwhy]|(p & E & Hfit & Hmem)]; rewrite E; simpl.
  - exists false, v. by split_and!.
  - exists true, (resized v p num_elements). split; [done|].
    split; [|split; [done|]].
    + split; [done|]. intros [?|?]; [lia|done].
    + intros _.
      destruct (vec_resize_success v num_elements a p Hwf Hn E)
        as (Hwf' & Hbytes & Hslots).
      by split_and!.
Qed.

(** ** Growth: [vec_grow] *)

(** [vec_grow] in one step. *)
Lemma vec_grow_eq v a :
  is_size (capacity v) →
  vec_grow (Some v) a
  = if decide (2 ≤ capacity v ∧ capacity v * 3 < SIZE_MOD)
    then vec_resize (Some v) (capacity v * 3 / 2) a
    else Ret (false, v).
Proof.
  intros Hc. unfold vec_grow. simpl.
  pose proof (grow_guard (capacity v) Hc) as Hg.
  destruct (decide _) as [[H2 Hs]|Hno].
  - rewrite (proj2 Hg) by done.
    by destruct (grow_guard_value (capacity v) H2 Hs) as [-> _].
  - destruct (_ <=? _); [done|]. destruct Hno. by apply Hg.
Qed.

(** What a call of [vec_grow] that returns has done. *)
Lemma vec_grow_Ret v a ok v' :
  is_size (capacity v) →
  vec_grow (Some v) a = Ret (ok, v') →
  if ok
  then 2 ≤ capacity v ∧ capacity v * 3 < SIZE_MOD ∧
       capacity v' = capacity v * 3 / 2 ∧ capacity v < capacity v' ∧
       len v' = Z.min (len v) (capacity v') ∧ elem_size v' = elem_size v
  else v' = v ∨
       (elem_size v = 0 ∧ v' = set_inner v (freed_block (inner v))).
Proof.
  intros Hc. rewrite vec_grow_eq by done.
  destruct (decide _) as [[H2 Hs]|Hno]; [|intros [= <- <-]; by left].
  destruct (grow_guard_value (capacity v) H2 Hs) as [_ Hlt].
  rewrite vec_resize_eq.
  destruct (reallocarray _ _ _ _) as [[p| |]| |] eqn:E; try done; simpl.
  - intros [= <- <-]. simpl. split_and!; try done.
    destruct (_ <? _) eqn:El; [apply Z.ltb_lt in El|apply Z.ltb_ge in El]; lia.
  - intros [= <- <-]. by left.
  - intros [= <- <-]. right. split; [|done].
    apply reallocarray_Freed in E as [_ Hz]. nia.
Qed.


(** [vec_grow] on a well-formed vector always returns; it succeeds exactly
    when its check passes, the new size in bytes is neither zero nor too
    large, and the allocator has memory. *)
Lemma vec_grow_cases v a :
  wf v →
  ∃ ok v', vec_grow (Some v) a = Ret (ok, v') ∧
    (ok = true ↔
     2 ≤ capacity v ∧ capacity v * 3 < SIZE_MOD ∧
     capacity v * 3 / 2 * elem_size v < SIZE_MOD ∧ elem_size v ≠ 0 ∧
     a ≠ NoMem) ∧
    (ok = true →
     wf v' ∧ capacity v' = capacity v * 3 / 2 ∧ capacity v < capacity v' ∧
     len v' = len v ∧ elem_size v' = elem_size v ∧
     ∀ j, 0 ≤ j < capacity v → slot v' j = slot v j) ∧
    (ok = false →
     v' = v ∨ (elem_size v = 0 ∧ v' = set_inner v (freed_block (inner v)))).
Proof.
  intros Hwf. pose proof Hwf as [Hlen Hcap Hes Htot Hbytes Hlive].
  assert (is_size (capacity v)) as Hc by (unfold is_size; lia).
  rewrite vec_grow_eq by done.
  destruct (decide _) as [[H2 Hs]|Hno].
  2:{ exists false, v. split_and!; try done; [|by left].
      split; [done|]. intros (? & ? & _). by destruct Hno. }
  destruct (grow_guard_value (capacity v) H2 Hs) as [_ Hlt].
  assert (is_size (capacity v * 3 / 2)) as Hnew by (apply grow_target_size; lia).
  unfold is_size in Hes.
  destruct (Z.eq_dec (elem_size v) 0) as [Hz|Hnz].
  { rewrite vec_resize_eq, reallocarray_zero by (done || nia). simpl.
    eexists false, _. split_and!; try done; [|by right].
    split; [done|]. by intros (_ & _ & _ & ? & _). }
  assert (capacity v * 3 / 2 * elem_size v ≠ 0) as Hbytes' by nia.
  rewrite vec_resize_eq.
  destruct (reallocarray_nonzero (inner v) _ _ a Hlive Hbytes')
    as [[E Hwhy]|(p & E & Hfit & Hmem)]; rewrite E; simpl.
  - exists false, v. split_and!; try done; [|by left].
    split; [done|]. intros (_ & _ & ? & _ & ?). destruct Hwhy; [lia|done].
  - exists true, (resized v p (capacity v * 3 / 2)).
    destruct (vec_resize_success v _ a p Hwf Hnew E) as (Hwf' & _ & Hslots).
    split_and!; try done.
    intros _. split_and!; try done.
    + simpl. destruct (_ <? _) eqn:El; [apply Z.ltb_lt in El; lia|done].
    + intros j Hj. apply Hslots. lia.
Qed.

(** With elements of at least one byte a failed [vec_grow] changed
    nothing. *)
Lemma vec_grow_failed_nonzero v a v' :
  is_size (capacity v) → 0 < elem_size v →
  vec_grow (Some v) a = Ret (false, v') → v' = v.
Proof.
  intros Hc Hes Hgrow.
  destruct (vec_grow_Ret v a false v' Hc Hgrow) as [?|[? _]]; [done|lia].
Qed.




(** ** Pushing: [vec_push] *)

Lemma VEC_ADDR_OF_slot v j :
  wf v → 0 ≤ j ≤ capacity v → VEC_ADDR_OF v j = j * elem_size v.
Proof.
  intros [Hlen Hcap Hes Htot Hbytes Hlive] Hj. unfold VEC_ADDR_OF.
  apply wrap_small. unfold is_size in *. nia.
Qed.

(** With room for one more element, [vec_push] does not call [vec_grow]. *)
Lemma vec_push_room v element a :
  wf v → len v < capacity v → elem_size v ≤ Z.of_nat (length element) →
  ∃ m,
    store (blk_bytes (inner v)) (len v * elem_size v)
          (take (Z.to_nat (elem_size v)) element) = Some m ∧
    vec_push (Some v) element a = Ret (Some (slot_ptr v (len v)), pushed v m).
Proof.
  intros Hwf Hroom Hel. pose proof Hwf as [Hlen Hcap Hes Htot Hbytes Hlive].
  unfold is_size in *.
  assert (Z.of_nat (length (take (Z.to_nat (elem_size v)) element)) = elem_size v)
    as Hbs by (rewrite length_take; lia).
  destruct (store (blk_bytes (inner v)) (len v * elem_size v)
                  (take (Z.to_nat (elem_size v)) element)) as [m|] eqn:Est.
  - exists m. split; [done|]. unfold vec_push. simpl.
    rewrite (proj2 (Z.leb_gt _ _) Hroom). simpl.
    rewrite load_Some by lia. simpl.
    change (Z.to_nat 0) with 0%nat. rewrite drop_0.
    rewrite VEC_ADDR_OF_slot by (done || lia).
    rewrite bstore_live, Est by done. simpl.
    unfold pushed, slot_ptr. do 3 f_equal. apply wrap_small.
    unfold is_size. lia.
  - rewrite store_Some in Est by nia. done.
Qed.

(** What writing slot [len v] changes. *)
Lemma pushed_spec v bs m :
  wf v → len v < capacity v → Z.of_nat (length bs) = elem_size v →
  store (blk_bytes (inner v)) (len v * elem_size v) bs = Some m →
  wf (pushed v m) ∧
  slot (pushed v m) (len v) = Some bs ∧
  ∀ j, j ≠ len v → slot (pushed v m) j = slot v j.
Proof.
  intros [Hlen Hcap Hes Htot Hbytes Hlive] Hroom Hbs Hst. unfold is_size in *.
  pose proof (store_length _ _ _ _ Hst) as Hm.
  split; [|split].
  - constructor; simpl; unfold is_size; try done; try lia.
  - pose proof (load_store_same _ _ _ _ Hst) as Hl. by rewrite Hbs in Hl.
  - intros j Hj. unfold slot. simpl.
    eapply load_store_other; [done|]. rewrite Hbs. nia.
Qed.

(** After a growth that succeeded there is room: the push goes on as on the
    grown vector. *)
Lemma vec_push_grown v v1 element a a' :
  wf v → capacity v ≤ len v → vec_grow (Some v) a = Ret (true, v1) →
  wf v1 ∧ len v1 = len v ∧ len v1 < capacity v1 ∧ elem_size v1 = elem_size v ∧
  (∀ j, 0 ≤ j < len v → slot v1 j = slot v j) ∧
  vec_push (Some v) element a = vec_push (Some v1) element a'.
Proof.
  intros Hwf Hfull Hgrow. pose proof Hwf as [Hlen Hcap Hes Htot Hbytes Hlive].
  assert (is_size (capacity v)) as Hc by (unfold is_size; lia).
  pose proof (vec_grow_Ret _ _ _ _ Hc Hgrow) as (H2 & Hs & Hc1 & Hlt & Hl1 & He1).
  assert (is_size (capacity v * 3 / 2)) as Hnew.
  { apply grow_target_size; lia. }
  pose proof Hgrow as Hresize. rewrite vec_grow_eq in Hresize by done.
  destruct (decide _) as [_|Hno]; [|done].
  destruct (vec_resize_Ret _ _ _ _ _ Hwf Hnew Hresize)
    as (Hwf1 & _ & _ & _ & Hslots).
  assert (len v1 = len v) as Hlen1 by lia.
  split; [done|]. split; [done|]. split; [lia|]. split; [done|].
  split. { intros j Hj. apply Hslots. lia. }
  unfold vec_push. simpl.
  rewrite (proj2 (Z.leb_le _ _) Hfull), Hgrow. simpl.
  by rewrite (proj2 (Z.leb_gt (capacity v1) (len v1))) by lia.
Qed.

(** A vector that is full is one whose growth [vec_push] attempts; growth
    that fails makes the push fail with the vector as it was. *)
Lemma vec_push_grow_failed v v' element a :
  capacity v ≤ len v → vec_grow (Some v) a = Ret (false, v') →
  vec_push (Some v) element a = Ret (None, v').
Proof.
  intros Hfull Hgrow.
  unfold vec_push. simpl. by rewrite (proj2 (Z.leb_le _ _) Hfull), Hgrow.
Qed.

(** With room, or after a growth that succeeded, [vec_push] stores the
    element in slot [len v]. *)
Lemma vec_push_stored v element a v1 :
  wf v → elem_size v ≤ Z.of_nat (length element) →
  (len v < capacity v ∧ v1 = v) ∨
  (len v = capacity v ∧ vec_grow (Some v) a = Ret (true, v1)) →
  ∃ v2,
    vec_push (Some v) element a = Ret (Some (slot_ptr v2 (len v)), v2) ∧
    len v2 = len v + 1 ∧ capacity v2 = capacity v1 ∧
    elem_size v2 = elem_size v ∧ blk_id (inner v2) = blk_id (inner v1) ∧
    slot v2 (len v) = Some (take (Z.to_nat (elem_size v)) element) ∧
    (∀ j, 0 ≤ j < len v → slot v2 j = slot v j) ∧ wf v2.
Proof.
  intros Hwf Hel.
  assert (∀ w, wf w → len w < capacity w → elem_size w = elem_size v →
    ∀ a', ∃ v2,
     vec_push (Some w) element a' = Ret (Some (slot_ptr v2 (len w)), v2) ∧
     len v2 = len w + 1 ∧ capacity v2 = capacity w ∧
     elem_size v2 = elem_size w ∧ blk_id (inner v2) = blk_id (inner w) ∧
     slot v2 (len w) = Some (take (Z.to_nat (elem_size w)) element) ∧
     (∀ j, 0 ≤ j < len w → slot v2 j = slot w j) ∧ wf v2) as Hroom.
  { intros w Hw Hlt He a'.
    destruct (vec_push_room w element a' Hw Hlt) as (m & Hst & Hpush); [lia|].
    destruct (pushed_spec w (take (Z.to_nat (elem_size w)) element) m Hw Hlt)
      as (Hwf2 & Hnew & Hold); [| done |].
    { rewrite length_take. destruct Hw as [_ _ [] _ _ _]. lia. }
    exists (pushed w m). split_and!; try done.
    intros j Hj. apply Hold. lia. }
  intros [[Hlt ->]|[Hfull Hgrow]]; [by apply Hroom|].
  destruct (vec_push_grown v v1 element a a Hwf) as
    (Hwf1 & Hl1 & Hlt1 & He1 & Hkeep & ->); [lia|done|].
  destruct (Hroom v1 Hwf1 Hlt1 He1 a)
    as (v2 & Hpush & ? & ? & ? & ? & Hnew & Hold & ?).
  exists v2. rewrite <- Hl1, <- He1. split_and!; try done; try congruence.
  intros j Hj. rewrite Hold by done. apply Hkeep. lia.
Qed.

(** [vec_push] always returns; a push that failed changed nothing, or, with
    elements of no bytes, left the block freed. *)
Lemma vec_push_returns v element a :
  wf v → elem_size v ≤ Z.of_nat (length element) →
  ∃ r v2, vec_push (Some v) element a = Ret (r, v2) ∧
          (r = None →
           v2 = v ∨
           (elem_size v = 0 ∧ v2 = set_inner v (freed_block (inner v)))).
Proof.
  intros Hwf Hel.
  destruct (Z_lt_ge_dec (len v) (capacity v)) as [Hlt|Hfull].
  - destruct (vec_push_stored v element a v Hwf Hel) as (v2 & -> & _);
      [by left|]. by eexists _, _.
  - pose proof Hwf as [Hlen Hcap _ _ _ _].
    destruct (vec_grow_cases v a Hwf) as (ok & v1 & Hgrow & _ & _ & Hfail).
    destruct ok.
    + destruct (vec_push_stored v element a v1 Hwf Hel) as (v2 & -> & _);
        [right; split; [lia|done]|]. by eexists _, _.
    + exists None, v1. split; [|intros _; by apply Hfail].
      apply vec_push_grow_failed; [lia|done].
Qed.

(** C1, at the input where the code departs from it: a full vector of
    elements of no bytes, as [vec_init] and three pushes give it.  The
    growth that [vec_push] attempts asks [reallocarray] for zero bytes, which
    frees the block and returns [NULL]; [vec_resize] and [vec_grow] report a
    failure, and [vec_push] returns [NULL] with [inner] pointing to the
    freed block: the vector is not as it was.  The defect is the one of
    [vec_resize]. *)
Theorem vec_push_zero_size_frees (element : list byte) (a : alloc) :
  vec_init 3 0 true (Fresh 16 junk_ff) = Some (Vector (Block 16 []) 3 0 0) ∧
  run (Vector (Block 16 []) 3 0 0)
      [OpPush [] NoMem; OpPush [] NoMem; OpPush [] NoMem] = Ret v_zero ∧
  wf v_zero ∧
  vec_grow (Some v_zero) a = Ret (false, Vector (MkBlock 16 [] true) 3 3 0) ∧
  vec_push (Some v_zero) element a
  = Ret (None, Vector (MkBlock 16 [] true) 3 3 0) ∧
  Vector (MkBlock 16 [] true) 3 3 0 ≠ v_zero.
Proof.
  assert (vec_grow (Some v_zero) a
          = Ret (false, Vector (MkBlock 16 [] true) 3 3 0)) as Hgrow.
  { rewrite vec_grow_eq by (pose proof SIZE_MOD_val; unfold is_size; simpl; lia).
    destruct (decide _) as [_|Hno];
      [|destruct Hno; pose proof SIZE_MOD_val; simpl; lia].
    rewrite vec_resize_eq. by rewrite reallocarray_zero. }
  split_and!; [done..| |done].
  by apply vec_push_grow_failed.
Qed.


(** What a call of [vec_push] that stored the element has done. *)
Lemma vec_push_Some v element a p v1 :
  wf v → elem_size v ≤ Z.of_nat (length element) →
  vec_push (Some v) element a = Ret (Some p, v1) →
  p = slot_ptr v1 (len v) ∧ len v1 = len v + 1 ∧ elem_size v1 = elem_size v ∧
  slot v1 (len v) = Some (take (Z.to_nat (elem_size v)) element) ∧
  (∀ j, 0 ≤ j < len v → slot v1 j = slot v j) ∧ wf v1.
Proof.
  intros Hwf Hel Hpush.
  assert (∃ w, (len v < capacity v ∧ w = v) ∨
               (len v = capacity v ∧ vec_grow (Some v) a = Ret (true, w)))
    as [w Hw].
  { pose proof Hwf as [Hlen Hcap _ _ _ _].
    destruct (Z_lt_ge_dec (len v) (capacity v)) as [Hlt|Hfull].
    { exists v. by left. }
    destruct (vec_grow_cases v a Hwf) as (ok & w & Hgrow & _).
    destruct ok; [exists w; right; split; [lia|done]|].
    rewrite (vec_push_grow_failed v w element a) in Hpush; [done|lia|done]. }
  destruct (vec_push_stored v element a w Hwf Hel Hw)
    as (v2 & Hpush2 & ? & ? & ? & ? & ? & ? & ?).
  rewrite Hpush2 in Hpush. injection Hpush as <- <-. done.
Qed.

(** ** Popping: [vec_pop] *)

Lemma store_whole (m bs : list byte) :
  length m = length bs → store m 0 bs = Some bs.
Proof.
  intros Hlen. rewrite store_Some by lia.
  change (Z.to_nat 0) with 0%nat. simpl.
  by rewrite drop_ge, app_nil_r by lia.
Qed.

Lemma vec_pop_empty v a : len v = 0 → vec_pop (Some v) a = Ret (None, v).
Proof. intros Hl. unfold vec_pop. simpl. by rewrite Hl. Qed.

Lemma vec_pop_nomem v : vec_pop (Some v) NoMem = Ret (None, v).
Proof. unfold vec_pop. simpl. by destruct (len v =? 0). Qed.

(** On a vector that is not empty, with memory for the copy, [vec_pop]
    returns the bytes of the last slot in a block of their own and takes one
    off the length; nothing else changes. *)
Lemma vec_pop_nonempty v id junk :
  wf v → 0 < len v →
  ∃ bs, slot v (len v - 1) = Some bs ∧
        vec_pop (Some v) (Fresh id junk)
        = Ret (Some (Block id bs), set_len v (len v - 1)).
Proof.
  intros Hwf Hpos. pose proof Hwf as [Hlen Hcap Hes Htot Hbytes Hlive].
  unfold is_size in *.
  assert (wrap (len v - 1) = len v - 1) as Hdec.
  { apply wrap_small. unfold is_size. lia. }
  destruct (slot v (len v - 1)) as [bs|] eqn:Hslot.
  - exists bs. split; [done|]. unfold vec_pop. simpl.
    rewrite (proj2 (Z.eqb_neq _ _)) by lia. simpl.
    rewrite Hdec, VEC_ADDR_OF_slot by (done || lia).
    unfold slot in Hslot. rewrite bload_live, Hslot by done. simpl.
    apply load_inv in Hslot as (_ & _ & _ & _ & Hbs).
    rewrite store_whole; [done|].
    rewrite length_fmap, length_seq. lia.
  - unfold slot in Hslot. rewrite load_Some in Hslot by nia. done.
Qed.

(** C7: a [vec_push] that succeeded, followed by a [vec_pop] that gets its
    memory, gives back in a block of its own the [elem_size] bytes that were
    pushed and restores the length.  [vec_pop] on an empty vector returns
    [NULL] and changes nothing; so does [vec_pop] when the allocation of the
    copy fails: the length is not decremented. *)
Theorem push_pop_roundtrip (v : vector) (element : list byte) (a : alloc) :
  wf v → elem_size v ≤ Z.of_nat (length element) →
  (∀ p v1, vec_push (Some v) element a = Ret (Some p, v1) →
     ∀ id junk,
       vec_pop (Some v1) (Fresh id junk)
       = Ret (Some (Block id (take (Z.to_nat (elem_size v)) element)),
              set_len v1 (len v))) ∧
  (len v = 0 → ∀ a', vec_pop (Some v) a' = Ret (None, v)) ∧
  vec_pop (Some v) NoMem = Ret (None, v).
Proof.
  intros Hwf Hel. split; [|split].
  - intros p v1 Hpush id junk.
    destruct (vec_push_Some _ _ _ _ _ Hwf Hel Hpush)
      as (_ & Hl1 & He1 & Hnew & _ & Hwf1).
    destruct Hwf as [Hlen _ _ _ _ _].
    destruct (vec_pop_nonempty v1 id junk Hwf1) as (bs & Hlast & ->); [lia|].
    replace (len v1 - 1) with (len v) in * by lia.
    rewrite Hnew in Hlast. by injection Hlast as <-.
  - intros Hl a'. by apply vec_pop_empty.
  - apply vec_pop_nomem.
Qed.

(** ** Removing: [vec_remove], [vec_swap_remove] *)

Section memmove.
Implicit Types (m bs : list byte) (dst src n : Z).

Lemma memmove_inv m dst src n m' :
  memmove m dst src n = Some m' →
  ∃ bs, load m src n = Some bs ∧ store m dst bs = Some m'.
Proof.
  unfold memmove. destruct (load m src n) as [bs|]; [|done].
  simpl. intros Hst. by exists bs.
Qed.

Lemma memmove_Some m dst src n :
  0 ≤ src → 0 ≤ dst → 0 ≤ n →
  src + n ≤ Z.of_nat (length m) → dst + n ≤ Z.of_nat (length m) →
  ∃ m', memmove m dst src n = Some m'.
Proof.
  intros Hs Hd Hn Hsn Hdn. unfold memmove.
  rewrite load_Some by done. simpl.
  rewrite store_Some; [by eexists|done|].
  rewrite length_take, length_drop. lia.
Qed.

Lemma memmove_length m dst src n m' :
  memmove m dst src n = Some m' → length m' = length m.
Proof. intros (bs & _ & Hst)%memmove_inv. by eapply store_length. Qed.

(** The bytes moved: the destination range holds what the source range
    held. *)
Lemma memmove_lookup_in m dst src n m' (k : nat) :
  memmove m dst src n = Some m' → (k < Z.to_nat n)%nat →
  m' !! (Z.to_nat dst + k)%nat = m !! (Z.to_nat src + k)%nat.
Proof.
  intros (bs & Hl & Hst)%memmove_inv Hk.
  pose proof (load_inv _ _ _ _ Hl) as (_ & _ & _ & _ & Hlen).
  rewrite (store_lookup_in _ _ _ _ _ Hst) by lia.
  by eapply load_lookup.
Qed.

(** The bytes outside the destination range stay. *)
Lemma memmove_lookup_out m dst src n m' (i : nat) :
  memmove m dst src n = Some m' →
  (i < Z.to_nat dst ∨ Z.to_nat dst + Z.to_nat n ≤ i)%nat →
  m' !! i = m !! i.
Proof.
  intros (bs & Hl & Hst)%memmove_inv Hi.
  pose proof (load_inv _ _ _ _ Hl) as (_ & _ & _ & _ & Hlen).
  destruct Hi.
  - by eapply store_lookup_lt.
  - eapply store_lookup_ge; [done|]. lia.
Qed.

(** Moving a range onto itself changes nothing. *)
Lemma memmove_self m off n :
  0 ≤ off → 0 ≤ n → off + n ≤ Z.of_nat (length m) →
  memmove m off off n = Some m.
Proof.
  intros Ho Hn Hon. unfold memmove.
  destruct (load m off n) as [bs|] eqn:Hl.
  - simpl. by eapply store_load_id.
  - by rewrite load_Some in Hl.
Qed.
End memmove.

(** Two ranges of the same length with the same bytes load the same. *)
Lemma load_shift (m m' : list byte) (off off' n : Z) :
  0 ≤ off → 0 ≤ off' →
  off + n ≤ Z.of_nat (length m) → off' + n ≤ Z.of_nat (length m') →
  (∀ k : nat, (k < Z.to_nat n)%nat →
              m' !! (Z.to_nat off' + k)%nat = m !! (Z.to_nat off + k)%nat) →
  load m' off' n = load m off n.
Proof.
  intros Ho Ho' Hm Hm' Hext. unfold load.
  rewrite (proj2 (Z.leb_le _ _) Hm), (proj2 (Z.leb_le _ _) Hm').
  rewrite (proj2 (Z.leb_le _ _) Ho), (proj2 (Z.leb_le _ _) Ho').
  destruct (0 <=? n); [|done]. simpl. f_equal.
  apply list_eq. intros k.
  destruct (decide (k < Z.to_nat n)%nat).
  - rewrite !lookup_take_lt, !lookup_drop by done. by apply Hext.
  - by rewrite !lookup_take_ge by lia.
Qed.

Lemma set_bytes_id v : set_bytes v (blk_bytes (inner v)) = v.
Proof. by destruct v as [[id m] c l es]. Qed.

(** [vec_remove] on a valid index is one block move, of no bytes when the
    index is the last one. *)
Lemma vec_remove_eq v index :
  wf v → 0 ≤ index < len v →
  ∃ m,
    memmove (blk_bytes (inner v)) (index * elem_size v)
            ((index + 1) * elem_size v)
            ((len v - 1 - index) * elem_size v) = Some m ∧
    vec_remove (Some v) index = Ret (set_len (set_bytes v m) (len v - 1)) ∧
    (index = len v - 1 → m = blk_bytes (inner v)).
Proof.
  intros Hwf Hi. pose proof Hwf as [Hlen Hcap Hes Htot Hbytes Hlive].
  unfold is_size in *.
  assert (wrap (len v - 1) = len v - 1) as Hdec.
  { apply wrap_small. unfold is_size. lia. }
  unfold vec_remove, vec_validate_idx. 
  rewrite (proj2 (Z.ltb_lt index (len v))) by lia. simpl. rewrite Hdec.
  destruct (Z.eq_dec index (len v - 1)) as [->|Hne].
  - rewrite Z.eqb_refl. simpl.
    replace (len v - 1 - (len v - 1)) with 0 by lia.
    replace (len v - 1 + 1) with (len v) by lia.
    exists (blk_bytes (inner v)). split; [|by rewrite set_bytes_id].
    unfold memmove. rewrite load_Some by nia. simpl.
    rewrite store_Some by (simpl; nia). simpl.
    by rewrite Nat.add_0_r, take_drop.
  - rewrite (proj2 (Z.eqb_neq _ _)) by done. simpl.
    rewrite (wrap_small (len v - 1 - index)) by (unfold is_size; lia).
    rewrite (wrap_small ((len v - 1 - index) * elem_size v))
      by (unfold is_size; nia).
    rewrite (wrap_small (index + 1)) by (unfold is_size; lia).
    rewrite !VEC_ADDR_OF_slot, bmemmove_live by (done || lia).
    destruct (memmove_Some (blk_bytes (inner v)) (index * elem_size v)
                ((index + 1) * elem_size v)
                ((len v - 1 - index) * elem_size v)) as [m Hm]; try nia.
    exists m. rewrite Hm. simpl. split; [done|]. split; [done|]. lia.
Qed.

(** [vec_swap_remove] on a valid index is one move of the last slot onto
    the slot of the index. *)
Lemma vec_swap_remove_eq v index :
  wf v → 0 ≤ index < len v →
  ∃ m,
    memmove (blk_bytes (inner v)) (index * elem_size v)
            ((len v - 1) * elem_size v) (elem_size v) = Some m ∧
    vec_swap_remove (Some v) index = Ret (set_len (set_bytes v m) (len v - 1)) ∧
    (index = len v - 1 → m = blk_bytes (inner v)).
Proof.
  intros Hwf Hi. pose proof Hwf as [Hlen Hcap Hes Htot Hbytes Hlive].
  unfold is_size in *.
  assert (wrap (len v - 1) = len v - 1) as Hdec.
  { apply wrap_small. unfold is_size. lia. }
  unfold vec_swap_remove, vec_validate_idx.
  rewrite (proj2 (Z.ltb_lt index (len v))) by lia. simpl. rewrite Hdec.
  destruct (2 <=? len v) eqn:E2; simpl.
  - rewrite !VEC_ADDR_OF_slot, bmemmove_live by (done || lia).
    destruct (memmove_Some (blk_bytes (inner v)) (index * elem_size v)
                ((len v - 1) * elem_size v) (elem_size v)) as [m Hm]; try nia.
    exists m. rewrite Hm. simpl. split; [done|]. split; [done|].
    intros ->. rewrite memmove_self in Hm by nia. by injection Hm.
  - apply Z.leb_gt in E2. assert (index = 0 ∧ len v = 1) as [-> Hl] by lia.
    exists (blk_bytes (inner v)). rewrite Hl. simpl.
    split; [|by rewrite set_bytes_id].
    apply memmove_self; nia.
Qed.

(** The slots of a vector after the block move of [vec_remove]. *)
Lemma removed_slots v index m :
  wf v → 0 ≤ index < len v →
  memmove (blk_bytes (inner v)) (index * elem_size v)
          ((index + 1) * elem_size v)
          ((len v - 1 - index) * elem_size v) = Some m →
  let v' := set_len (set_bytes v m) (len v - 1) in
  (∀ j, 0 ≤ j < index → slot v' j = slot v j) ∧
  (∀ j, index ≤ j < len v - 1 → slot v' j = slot v (j + 1)) ∧
  (∀ j, len v - 1 ≤ j → slot v' j = slot v j).
Proof.
  intros [Hlen Hcap Hes Htot Hbytes Hlive] Hi Hm. unfold is_size in *.
  pose proof (memmove_length _ _ _ _ _ Hm) as Hlm.
  simpl. unfold slot. simpl. split; [|split]; intros j Hj.
  - apply load_ext; [done|]. intros i Hrange.
    eapply memmove_lookup_out; [done|]. left. nia.
  - apply load_shift; try nia. intros k Hk.
    replace (Z.to_nat (j * elem_size v) + k)%nat
      with (Z.to_nat (index * elem_size v)
            + (Z.to_nat ((j - index) * elem_size v) + k))%nat by nia.
    rewrite (memmove_lookup_in _ _ _ _ _ _ Hm) by nia.
    f_equal. nia.
  - apply load_ext; [done|]. intros i Hrange.
    eapply memmove_lookup_out; [done|]. right. nia.
Qed.

(** The slots of a vector after the move of [vec_swap_remove]. *)
Lemma swap_removed_slots v index m :
  wf v → 0 ≤ index < len v →
  memmove (blk_bytes (inner v)) (index * elem_size v)
          ((len v - 1) * elem_size v) (elem_size v) = Some m →
  let v' := set_len (set_bytes v m) (len v - 1) in
  slot v' index = slot v (len v - 1) ∧
  (∀ j, j ≠ index → slot v' j = slot v j).
Proof.
  intros [Hlen Hcap Hes Htot Hbytes Hlive] Hi Hm. unfold is_size in *.
  pose proof (memmove_length _ _ _ _ _ Hm) as Hlm.
  simpl. unfold slot. simpl. split.
  - apply load_shift; try nia. intros k Hk.
    by eapply memmove_lookup_in.
  - intros j Hj.
    destruct (Z_lt_ge_dec j 0) as [Hneg|Hpos].
    { unfold load. 
      destruct (Z.eq_dec (elem_size v) 0) as [He|He].
      - apply load_ext; [done|]. intros i Hrange. rewrite He in Hrange. lia.
      - by rewrite (proj2 (Z.leb_gt 0 (j * elem_size v))) by nia. }
    apply load_ext; [done|]. intros i Hrange.
    eapply memmove_lookup_out; [done|].
    destruct (Z_lt_ge_dec j index); [left|right]; nia.
Qed.

(** C6: on a valid index [vec_remove] moves the
    [(len - 1 - index) * elem_size] bytes after the slot one slot down:
    the slots below the index stay, every slot from the index on holds what
    the next one held, and the length goes down by one.  [vec_swap_remove]
    leaves in the slot of the index what the last slot held, leaves the
    other slots, and the length goes down by one.  With the index of the
    last element both only decrement the length. *)
Theorem remove_spec (v : vector) (index : Z) :
  wf v → 0 ≤ index < len v →
  (∃ v',
     vec_remove (Some v) index = Ret v' ∧
     len v' = len v - 1 ∧
     memmove (blk_bytes (inner v)) (index * elem_size v)
             ((index + 1) * elem_size v)
             ((len v - 1 - index) * elem_size v) = Some (blk_bytes (inner v')) ∧
     (∀ j, 0 ≤ j < index → slot v' j = slot v j) ∧
     (∀ j, index ≤ j < len v - 1 → slot v' j = slot v (j + 1)) ∧
     (index = len v - 1 → v' = set_len v (len v - 1))) ∧
  (∃ v',
     vec_swap_remove (Some v) index = Ret v' ∧
     len v' = len v - 1 ∧
     slot v' index = slot v (len v - 1) ∧
     (∀ j, j ≠ index → slot v' j = slot v j) ∧
     (index = len v - 1 → v' = set_len v (len v - 1))).
Proof.
  intros Hwf Hi. split.
  - destruct (vec_remove_eq v index Hwf Hi) as (m & Hm & -> & Hlast).
    destruct (removed_slots v index m Hwf Hi Hm) as (Hlow & Hshift & _).
    eexists. split; [done|]. split_and!; try done.
    intros Heq. by rewrite (Hlast Heq), set_bytes_id.
  - destruct (vec_swap_remove_eq v index Hwf Hi) as (m & Hm & -> & Hlast).
    destruct (swap_removed_slots v index m Hwf Hi Hm) as (Hmoved & Hrest).
    eexists. split; [done|]. split_and!; try done.
    intros Heq. by rewrite (Hlast Heq), set_bytes_id.
Qed.

(** ** The invariant [len ≤ capacity] *)

Lemma wf_set_len v l : wf v → 0 ≤ l ≤ capacity v → wf (set_len v l).
Proof. intros [Hlen Hcap Hes Htot Hbytes Hlive] Hl. by constructor. Qed.

Lemma wf_set_bytes v m :
  wf v → length m = length (blk_bytes (inner v)) → wf (set_bytes v m).
Proof.
  intros [Hlen Hcap Hes Htot Hbytes Hlive] Hm. constructor; try done.
  simpl. by rewrite Hm.
Qed.

Lemma vec_init_wf init_capacity sizeof_type a_vec a_inner v :
  is_size init_capacity → is_size sizeof_type →
  vec_init init_capacity sizeof_type a_vec a_inner = Some v →
  wf v ∧ len v = 0 ∧ capacity v = init_capacity ∧ elem_size v = sizeof_type.
Proof.
  intros Hc Hs. unfold vec_init, calloc.
  destruct a_vec; [|done]. simpl.
  destruct (SIZE_MOD <=? init_capacity * sizeof_type) eqn:E; [done|].
  apply Z.leb_gt in E. destruct a_inner as [|id junk]; [done|].
  intros [= <-]. split; [|done]. unfold is_size in *.
  constructor; simpl; try done; try lia.
  rewrite length_replicate. nia.
Qed.

(** A push whose element is shorter than [elem_size] reads outside it; if
    the call returns at all, it is because growth failed first.  A push
    that returns left a well-formed vector, or, with elements of no bytes,
    the vector with its block freed. *)
Lemma vec_push_Ret_cases v element a r v' :
  wf v → vec_push (Some v) element a = Ret (r, v') →
  (wf v' ∧ elem_size v' = elem_size v) ∨
  (elem_size v = 0 ∧ v' = set_inner v (freed_block (inner v))).
Proof.
  intros Hwf Hpush.
  destruct (Z_le_gt_dec (elem_size v) (Z.of_nat (length element))) as [Hel|Hshort].
  - destruct r as [p|].
    + left. by destruct (vec_push_Some _ _ _ _ _ Hwf Hel Hpush)
        as (_ & _ & ? & _ & _ & ?).
    + destruct (vec_push_returns v element a Hwf Hel) as (r & w & Hw & Hnone).
      rewrite Hpush in Hw. injection Hw as <- <-.
      destruct (Hnone eq_refl) as [->|?]; [by left|by right].
  - unfold vec_push in Hpush. simpl in Hpush.
    assert (∀ w, elem_size w = elem_size v → load element 0 (elem_size w) = None)
      as Hload.
    { intros w ->. unfold load.
      by rewrite (proj2 (Z.leb_gt (0 + elem_size v) _)), andb_false_r by lia. }
    destruct (capacity v <=? len v).
    + destruct (vec_grow (Some v) a) as [[ok w]| |] eqn:Hgrow; try done.
      pose proof Hwf as [Hlen Hcap _ _ _ _].
      pose proof (vec_grow_Ret v a ok w ltac:(unfold is_size; lia) Hgrow) as Hok.
      destruct ok; simpl in Hpush.
      * destruct Hok as (_ & _ & _ & _ & _ & He). by rewrite (Hload w He) in Hpush.
      * injection Hpush as <- <-. destruct Hok as [->|?]; [by left|by right].
    + simpl in Hpush. by rewrite (Hload v eq_refl) in Hpush.
Qed.

(** [vec_pop] leaves the struct as it was or takes one off a length that
    is not zero. *)
Lemma vec_pop_Ret v a r v' :
  vec_pop (Some v) a = Ret (r, v') →
  v' = v ∨ (len v ≠ 0 ∧ v' = set_len v (wrap (len v - 1))).
Proof.
  unfold vec_pop. simpl. destruct (len v =? 0) eqn:E.
  { intros [= <- <-]. by left. }
  apply Z.eqb_neq in E.
  destruct (malloc (elem_size v) a) as [element|]; [|intros [= <- <-]; by left].
  destruct (bload _ _ _) as [bs|]; [|done]. simpl.
  destruct (store _ _ _) as [m|]; [|done]. simpl.
  intros [= <- <-]. by right.
Qed.

(** One call on a well-formed vector leaves it well formed, unless the call
    made [reallocarray] free the block: with elements of no bytes, or asked
    for a capacity of zero. *)
Lemma step_wf_cases v o v' :
  wf v → op_ok o → step v o = Ret v' →
  (wf v' ∧ elem_size v' = elem_size v) ∨
  (v' = set_inner v (freed_block (inner v)) ∧
   (elem_size v = 0 ∨ ∃ a, o = OpResize 0 a)).
Proof.
  intros Hwf Hok. pose proof Hwf as [Hlen Hcap Hes Htot Hbytes Hlive].
  destruct o as [a|n a|element a|a|i|i|]; simpl in *.
  - destruct (vec_grow_cases v a Hwf) as (ok & w & -> & _ & Hgrown & Hfail).
    simpl. intros [= <-]. destruct ok.
    + left. by destruct (Hgrown eq_refl) as (? & _ & _ & _ & ? & _).
    + destruct (Hfail eq_refl) as [->|[? ->]]; [by left|right; split; [done|by left]].
  - destruct (vec_resize (Some v) n a) as [[ok w]| |] eqn:E; try done.
    simpl. intros [= <-]. apply vec_resize_Ret in E; [|done..].
    destruct ok; [left; by destruct E as (? & _ & ? & _)|].
    destruct E as [->|[Hz ->]]; [by left|]. right. split; [done|].
    destruct (Z.eq_dec (elem_size v) 0) as [?|Hnz]; [by left|].
    right. exists a. f_equal. nia.
  - destruct (vec_push (Some v) element a) as [[r w]| |] eqn:E; try done.
    simpl. intros [= <-].
    destruct (vec_push_Ret_cases _ _ _ _ _ Hwf E) as [?|[? ->]];
      [by left|right; split; [done|by left]].
  - destruct (vec_pop (Some v) a) as [[r w]| |] eqn:E; try done.
    simpl. intros [= <-]. left.
    apply vec_pop_Ret in E as [->|[Hne ->]]; [done|]. split; [|done].
    apply wf_set_len; [done|].
    rewrite wrap_small by (unfold is_size; lia). lia.
  - intros Hrm. left.
    destruct (validated_cases (Some v) i) as [[E _]|(w & [= <-] & Hlt & _)].
    { unfold vec_remove in Hrm. by rewrite E in Hrm. }
    unfold is_size in Hok.
    destruct (vec_remove_eq v i Hwf) as (m & Hm & Heq & _); [lia|].
    rewrite Heq in Hrm. injection Hrm as <-. split; [|done].
    apply wf_set_len; [|simpl; lia].
    apply wf_set_bytes; [done|]. by eapply memmove_length.
  - intros Hrm. left.
    destruct (validated_cases (Some v) i) as [[E _]|(w & [= <-] & Hlt & _)].
    { unfold vec_swap_remove in Hrm. by rewrite E in Hrm. }
    unfold is_size in Hok.
    destruct (vec_swap_remove_eq v i Hwf) as (m & Hm & Heq & _); [lia|].
    rewrite Heq in Hrm. injection Hrm as <-. split; [|done].
    apply wf_set_len; [|simpl; lia].
    apply wf_set_bytes; [done|]. by eapply memmove_length.
  - intros [= <-]. left. split; [|done]. apply wf_set_len; [done|lia].
Qed.

(** Once the block is freed, [reallocarray] is no longer called with
    impunity: it refuses an overflow or its behaviour is undefined. *)
Lemma vec_resize_freed v n a ok v' :
  blk_freed (inner v) = true →
  vec_resize (Some v) n a = Ret (ok, v') → v' = v.
Proof.
  intros Hfreed. rewrite vec_resize_eq. unfold reallocarray. rewrite Hfreed.
  destruct (SIZE_MOD <=? _); [|done]. simpl. by intros [= <- <-].
Qed.

(** One call on a vector whose block is freed, if it returns, leaves the
    block freed and the length within the capacity. *)
Lemma step_freed v o v' :
  blk_freed (inner v) = true → 0 ≤ len v ≤ capacity v → capacity v < SIZE_MOD →
  op_ok o → step v o = Ret v' →
  blk_freed (inner v') = true ∧ 0 ≤ len v' ≤ capacity v' ∧
  capacity v' < SIZE_MOD.
Proof.
  intros Hfreed Hlen Hcap Hok.
  assert (is_size (capacity v)) as Hc by (unfold is_size; lia).
  assert (∀ a ok w, vec_grow (Some v) a = Ret (ok, w) → w = v) as Hgrow.
  { intros a ok w. rewrite vec_grow_eq by done.
    destruct (decide _); [by apply vec_resize_freed|by intros [= <- <-]]. }
  destruct o as [a|n a|element a|a|i|i|]; simpl in *.
  - destruct (vec_grow (Some v) a) as [[ok w]| |] eqn:E; try done.
    simpl. intros [= <-]. by rewrite (Hgrow _ _ _ E).
  - destruct (vec_resize (Some v) n a) as [[ok w]| |] eqn:E; try done.
    simpl. intros [= <-]. by rewrite (vec_resize_freed _ _ _ _ _ Hfreed E).
  - unfold vec_push. simpl. destruct (capacity v <=? len v).
    + destruct (vec_grow (Some v) a) as [[ok w]| |] eqn:E; try done.
      rewrite (Hgrow _ _ _ E). simpl. destruct ok; simpl.
      * destruct (load _ _ _); [|done]. simpl.
        unfold bstore, live_bytes. by rewrite Hfreed.
      * by intros [= <-].
    + simpl. destruct (load _ _ _); [|done]. simpl.
      unfold bstore, live_bytes. by rewrite Hfreed.
  - destruct (vec_pop (Some v) a) as [[r w]| |] eqn:E; try done.
    simpl. intros [= <-].
    apply vec_pop_Ret in E as [->|[Hne ->]]; [done|]. simpl.
    rewrite wrap_small by (unfold is_size; lia). split_and!; (done || lia).
  - unfold vec_remove, vec_validate_idx. unfold is_size in Hok.
    destruct (i <? len v) eqn:E; [|done]. apply Z.ltb_lt in E. simpl.
    assert (wrap (len v - 1) = len v - 1) as Hdec
      by (apply wrap_small; unfold is_size; lia).
    destruct (negb _); simpl.
    + unfold bmemmove, live_bytes. by rewrite Hfreed.
    + intros [= <-]. simpl. rewrite Hdec. split_and!; (done || lia).
  - unfold vec_swap_remove, vec_validate_idx. unfold is_size in Hok.
    destruct (i <? len v) eqn:E; [|done]. apply Z.ltb_lt in E. simpl.
    assert (wrap (len v - 1) = len v - 1) as Hdec
      by (apply wrap_small; unfold is_size; lia).
    destruct (2 <=? len v); simpl.
    + unfold bmemmove, live_bytes. by rewrite Hfreed.
    + intros [= <-]. simpl. rewrite Hdec. split_and!; (done || lia).
  - intros [= <-]. simpl. split_and!; (done || lia).
Qed.

Lemma step_sound v o v' : sound v → op_ok o → step v o = Ret v' → sound v'.
Proof.
  intros [Hwf|(Hfreed & Hlen & Hcap)] Hok Hstep.
  - destruct (step_wf_cases v o v' Hwf Hok Hstep) as [[? _]|[-> _]]; [by left|].
    destruct Hwf as [? ? _ _ _ _]. by right.
  - right. by eapply step_freed.
Qed.

Lemma run_sound ops : ∀ v v',
  sound v → Forall op_ok ops → run v ops = Ret v' → sound v'.
Proof.
  induction ops as [|o ops IH]; intros v v' Hs Hok; simpl.
  { by intros [= <-]. }
  apply Forall_cons in Hok as [Ho Hops].
  destruct (step v o) as [w| |] eqn:E; try done. simpl.
  apply IH; [|done]. by eapply step_sound.
Qed.

(** C4: a vector that [vec_init] returned satisfies [len ≤ capacity], and
    so does the vector after any sequence of calls of [vec_grow],
    [vec_resize], [vec_push], [vec_pop], [vec_remove], [vec_swap_remove] and
    [vec_clear] that return; every prefix of a sequence is a sequence, so the
    invariant holds after each call. *)
Theorem len_le_capacity_invariant
    (init_capacity sizeof_type : Z) (a_vec : bool) (a_inner : alloc)
    (v : vector) (ops : list op) (v' : vector) :
  is_size init_capacity → is_size sizeof_type →
  vec_init init_capacity sizeof_type a_vec a_inner = Some v →
  Forall op_ok ops →
  run v ops = Ret v' →
  len v' ≤ capacity v'.
Proof.
  intros Hc Hs Hinit Hok Hrun.
  destruct (vec_init_wf _ _ _ _ _ Hc Hs Hinit) as (Hwf & _).
  destruct (run_sound ops v v' (or_introl Hwf) Hok Hrun)
    as [[[_ ?] _ _ _ _ _]|(_ & [_ ?] & _)]; done.
Qed.

(** ** What the shrinking operations leave alone *)

Lemma same_store_set v m l :
  length m = length (blk_bytes (inner v)) →
  same_store v (set_len (set_bytes v m) l).
Proof. intros Hm. by repeat split. Qed.

Lemma vec_remove_frame v index v' :
  vec_remove (Some v) index = Ret v' →
  index < len v ∧
  ∃ m, v' = set_len (set_bytes v m) (wrap (len v - 1)) ∧
       length m = length (blk_bytes (inner v)).
Proof.
  unfold vec_remove, vec_validate_idx.
  destruct (index <? len v) eqn:E; [|done]. apply Z.ltb_lt in E. simpl.
  destruct (negb _); simpl.
  - destruct (bmemmove _ _ _ _) as [m|] eqn:Hm; [|done]. simpl.
    apply bmemmove_inv in Hm as [_ Hm].
    intros [= <-]. split; [done|]. exists m. split; [done|].
    by eapply memmove_length.
  - intros [= <-]. split; [done|]. exists (blk_bytes (inner v)).
    split; [|done]. by destruct v as [[? ? ?] ? ? ?].
Qed.

Lemma vec_swap_remove_frame v index v' :
  vec_swap_remove (Some v) index = Ret v' →
  index < len v ∧
  ∃ m, v' = set_len (set_bytes v m) (wrap (len v - 1)) ∧
       length m = length (blk_bytes (inner v)).
Proof.
  unfold vec_swap_remove, vec_validate_idx.
  destruct (index <? len v) eqn:E; [|done]. apply Z.ltb_lt in E. simpl.
  destruct (2 <=? len v); simpl.
  - destruct (bmemmove _ _ _ _) as [m|] eqn:Hm; [|done]. simpl.
    apply bmemmove_inv in Hm as [_ Hm].
    intros [= <-]. split; [done|]. exists m. split; [done|].
    by eapply memmove_length.
  - intros [= <-]. split; [done|]. exists (blk_bytes (inner v)).
    split; [|done]. by destruct v as [[? ? ?] ? ? ?].
Qed.

(** C10: [vec_pop], [vec_remove], [vec_swap_remove] and [vec_clear] keep
    the capacity, the element size and the block: it stays at its address
    with its size.  [vec_pop] and [vec_clear] change no byte of it;
    [vec_remove] and [vec_swap_remove] on a well-formed vector change no
    byte below the slot of the index. *)
Theorem shrinking_ops_frame (v : vector) :
  (∀ a r v', vec_pop (Some v) a = Ret (r, v') →
     same_store v v' ∧ inner v' = inner v) ∧
  (∀ v', vec_clear (Some v) = Ret v' →
     same_store v v' ∧ inner v' = inner v) ∧
  (∀ index v',
     vec_remove (Some v) index = Ret v' ∨
     vec_swap_remove (Some v) index = Ret v' →
     same_store v v' ∧
     (wf v → ∀ k : nat, Z.of_nat k < index * elem_size v →
             blk_bytes (inner v') !! k = blk_bytes (inner v) !! k)).
Proof.
  split; [|split].
  - intros a r v' [->|[_ ->]]%vec_pop_Ret; by repeat split.
  - intros v' [= <-]. by repeat split.
  - intros index v' Hret.
    assert (index < len v ∧
            ∃ m, v' = set_len (set_bytes v m) (wrap (len v - 1)) ∧
                 length m = length (blk_bytes (inner v))) as (Hlt & m & Hv' & Hm).
    { destruct Hret; [by apply vec_remove_frame|by apply vec_swap_remove_frame]. }
    split; [rewrite Hv'; by apply same_store_set|].
    intros Hwf k Hk. pose proof Hwf as [Hlen Hcap Hes Htot Hbytes Hlive].
    unfold is_size in Hes.
    assert (0 ≤ index) as Hpos by nia.
    destruct Hret as [Hrm|Hrm].
    + destruct (vec_remove_eq v index Hwf) as (m' & Hm' & Heq & _); [lia|].
      rewrite Heq in Hrm. injection Hrm as <-. simpl.
      eapply memmove_lookup_out; [done|]. left. lia.
    + destruct (vec_swap_remove_eq v index Hwf) as (m' & Hm' & Heq & _); [lia|].
      rewrite Heq in Hrm. injection Hrm as <-. simpl.
      eapply memmove_lookup_out; [done|]. left. lia.
Qed.

(** ** Byte strings: [vec_to_str], [vec_clone_str] *)

(** On a vector of bytes whose resize gets its memory, [vec_to_str] leaks
    a block of [len + 1] bytes: the elements and a zero byte. *)
Lemma vec_to_str_bytes v id junk :
  wf v → elem_size v = 1 → len v + 1 < SIZE_MOD →
  vec_to_str (Some (Some v)) (Fresh id junk)
  = Ret (Block id (take (Z.to_nat (len v)) (blk_bytes (inner v)) ++ [x00]), None).
Proof.
  intros [Hlen Hcap Hes Htot Hbytes Hlive] He Hl. rewrite He in *.
  unfold vec_to_str. rewrite vec_resize_eq. unfold reallocarray.
  rewrite (wrap_small (len v + 1)) by (unfold is_size; lia).
  rewrite He, (proj2 (Z.leb_gt _ _)), Hlive, (proj2 (Z.eqb_neq _ 0)) by lia.
  simpl. rewrite Z.mul_1_r.
  replace (len v + 1 - 1) with (len v) by lia.
  rewrite (wrap_small (len v)) by (unfold is_size; lia).
  set (old := blk_bytes (inner v)).
  set (new := take (Z.to_nat (len v + 1)) old ++ _).
  assert (length new = Z.to_nat (len v + 1)) as Hnew.
  { unfold new. rewrite length_app, length_take, length_fmap, length_seq. lia. }
  assert (take (Z.to_nat (len v)) new = take (Z.to_nat (len v)) old) as Htake.
  { unfold new. rewrite take_app_le by (rewrite length_take; unfold old; lia).
    rewrite take_take. f_equal. lia. }
  rewrite bstore_live, store_Some by (done || simpl; lia). simpl.
  rewrite Htake, drop_ge by lia. done.
Qed.

(** On a vector of bytes [vec_clone_str], given its memory, returns a
    fresh block with the elements and a zero byte. *)
Lemma vec_clone_str_bytes v id junk :
  wf v → elem_size v = 1 → len v + 1 < SIZE_MOD →
  vec_clone_str (Some v) (Fresh id junk)
  = Ret (Some (Block id (take (Z.to_nat (len v)) (blk_bytes (inner v)) ++ [x00])), v).
Proof.
  intros [Hlen Hcap Hes Htot Hbytes Hlive] He Hl. rewrite He in *.
  unfold vec_clone_str. simpl.
  rewrite Z.mul_1_r, (wrap_small (len v + 1)) by (unfold is_size; lia).
  rewrite bload_live, load_Some by (done || lia). simpl.
  change (Z.to_nat 0) with 0%nat. rewrite drop_0.
  set (bs := take (Z.to_nat (len v)) (blk_bytes (inner v))).
  assert (length bs = Z.to_nat (len v)) as Hbs.
  { unfold bs. rewrite length_take. lia. }
  set (str := junk <$> _).
  assert (length str = Z.to_nat (len v + 1)) as Hstr.
  { unfold str. by rewrite length_fmap, length_seq. }
  rewrite store_Some by lia. simpl.
  set (m := bs ++ drop (length bs) str).
  assert (length m = Z.to_nat (len v + 1)) as Hm.
  { unfold m. rewrite length_app, length_drop. lia. }
  assert (take (Z.to_nat (len v)) m = bs) as Htake.
  { unfold m. by rewrite take_app_length' by lia. }
  rewrite store_Some by (simpl; lia). simpl.
  rewrite Htake, drop_ge by lia. done.
Qed.

(** C8: on a vector of bytes ([elem_size = 1]) whose resize to [len + 1]
    slots gets its memory, [vec_to_str] returns, as a block the caller owns,
    the [len] element bytes followed by a zero byte, [len + 1] bytes in all,
    and leaves the caller's handle [NULL]; [vec_clone_str] returns a block
    with the same bytes and leaves the vector as it was.  For the three
    bytes of "abc" both give the four bytes 'a', 'b', 'c', 0. *)
Theorem bytestring_spec (v : vector) (id id' : Z) (junk junk' : nat → byte) :
  wf v → elem_size v = 1 → len v + 1 < SIZE_MOD →
  let str := take (Z.to_nat (len v)) (blk_bytes (inner v)) ++ [x00] in
  vec_to_str (Some (Some v)) (Fresh id junk) = Ret (Block id str, None) ∧
  vec_clone_str (Some v) (Fresh id' junk') = Ret (Some (Block id' str), v) ∧
  Z.of_nat (length str) = len v + 1.
Proof.
  intros Hwf He Hl. simpl. split; [|split].
  - by apply vec_to_str_bytes.
  - by apply vec_clone_str_bytes.
  - destruct Hwf as [Hlen Hcap Hes Htot Hbytes Hlive].
    rewrite length_app, length_take. simpl. lia.
Qed.

(** C9, at the input where the code departs from it: [vec_clone_str] on a
    [NULL] handle does not return.  Its [assert] ends the process, whatever
    the allocator would have answered; only the failed allocation makes it
    return [NULL], with the vector as it was. *)
Theorem vec_clone_str_null_aborts (a : alloc) :
  vec_clone_str None a = Abort ∧
  ∀ v, vec_clone_str (Some v) NoMem = Ret (None, v).
Proof. by split. Qed.

(** * Instances

    The theorems above at concrete vectors. *)

Ltac concrete_wf :=
  constructor; simpl; pose proof SIZE_MOD_val; unfold is_size;
  (reflexivity || lia).

Ltac concrete_size :=
  pose proof SIZE_MOD_val; unfold is_size; simpl; lia.



(** Resizing "abc" to two slots. *)
Lemma vec_resize_nonzero_spec_witness :
  wf v_abc ∧ is_size 2 ∧ 2 * elem_size v_abc ≠ 0 ∧
  ∃ ok v',
    vec_resize (Some v_abc) 2 (Fresh 32 junk_ff) = Ret (ok, v') ∧
    (ok = false → v' = v_abc) ∧
    (ok = true → capacity v' = 2 ∧ len v' = 2).
Proof.
  assert (wf v_abc) as Hwf by concrete_wf.
  assert (is_size 2) as Hn by concrete_size.
  assert (2 * elem_size v_abc ≠ 0) as Hnz by (simpl; lia).
  split; [exact Hwf|]. split; [exact Hn|]. split; [exact Hnz|].
  destruct (vec_resize_nonzero_spec v_abc 2 (Fresh 32 junk_ff) Hwf Hn Hnz)
    as (ok & v' & Hret & _ & Hfail & Hok).
  exists ok, v'. split; [exact Hret|]. split; [exact Hfail|].
  intros Htrue. destruct (Hok Htrue) as (Hcap & Hlen & _).
  split; [exact Hcap|exact Hlen].
Defined.

(** The run [ops_example] from a vector that [vec_init] returned. *)
Lemma len_le_capacity_invariant_witness :
  is_size 2 ∧ is_size 1 ∧ Forall op_ok ops_example ∧
  ∃ v v',
    vec_init 2 1 true (Fresh 16 junk_ff) = Some v ∧
    run v ops_example = Ret v' ∧
    len v' ≤ capacity v'.
Proof.
  assert (is_size 2) as Hc by concrete_size.
  assert (is_size 1) as Hs by concrete_size.
  assert (Forall op_ok ops_example) as Hok.
  { unfold ops_example. repeat constructor; concrete_size. }
  split; [exact Hc|]. split; [exact Hs|]. split; [exact Hok|].
  eexists _, _. split; [reflexivity|]. split; [vm_compute; reflexivity|].
  eapply (len_le_capacity_invariant 2 1 true (Fresh 16 junk_ff) _ ops_example _
            Hc Hs); [reflexivity|exact Hok|vm_compute; reflexivity].
Defined.

(** Removing the first of "ab", "cd", "ef". *)
Lemma remove_spec_witness :
  wf v_pairs ∧ 0 ≤ 0 < len v_pairs ∧
  (∃ v', vec_remove (Some v_pairs) 0 = Ret v' ∧ len v' = len v_pairs - 1 ∧
         (∀ j, 0 ≤ j < len v_pairs - 1 → slot v' j = slot v_pairs (j + 1))) ∧
  (∃ v', vec_swap_remove (Some v_pairs) 0 = Ret v' ∧ len v' = len v_pairs - 1 ∧
         slot v' 0 = slot v_pairs (len v_pairs - 1)).
Proof.
  assert (wf v_pairs) as Hwf by concrete_wf.
  assert (0 ≤ 0 < len v_pairs) as Hi by (simpl; lia).
  split; [exact Hwf|]. split; [exact Hi|].
  destruct (remove_spec v_pairs 0 Hwf Hi)
    as [(v1 & Hrm & Hl1 & _ & _ & Hshift & _) (v2 & Hsw & Hl2 & Hlast & _)].
  split.
  - exists v1. split; [exact Hrm|]. split; [exact Hl1|exact Hshift].
  - exists v2. split; [exact Hsw|]. split; [exact Hl2|exact Hlast].
Defined.

(** Pushing "gh" onto "ab", "cd", "ef" and popping it back. *)
Lemma push_pop_roundtrip_witness :
  wf v_pairs ∧ elem_size v_pairs ≤ Z.of_nat (length [x67; x68]) ∧
  ∃ p v1,
    vec_push (Some v_pairs) [x67; x68] NoMem = Ret (Some p, v1) ∧
    vec_pop (Some v1) (Fresh 48 junk_ff)
    = Ret (Some (Block 48 [x67; x68]), set_len v1 (len v_pairs)).
Proof.
  assert (wf v_pairs) as Hwf by concrete_wf.
  assert (elem_size v_pairs ≤ Z.of_nat (length [x67; x68])) as Hel
    by (simpl; lia).
  split; [exact Hwf|]. split; [exact Hel|].
  eexists _, _. split; [vm_compute; reflexivity|].
  apply (proj1 (push_pop_roundtrip v_pairs [x67; x68] NoMem Hwf Hel)
           (Ptr 16 6)).
  vm_compute. reflexivity.
Defined.

(** "abc" as a string: 'a', 'b', 'c', 0, from either function; the copy
    leaves the vector with its three bytes. *)
Lemma bytestring_spec_witness :
  wf v_abc ∧ elem_size v_abc = 1 ∧ len v_abc + 1 < SIZE_MOD ∧
  vec_to_str (Some (Some v_abc)) (Fresh 32 junk_ff)
  = Ret (Block 32 (list_byte_of_string "abc" ++ [x00]), None) ∧
  vec_clone_str (Some v_abc) (Fresh 48 junk_ff)
  = Ret (Some (Block 48 (list_byte_of_string "abc" ++ [x00])), v_abc) ∧
  Z.of_nat (length (list_byte_of_string "abc" ++ [x00])) = 4.
Proof.
  assert (wf v_abc) as Hwf by concrete_wf.
  assert (elem_size v_abc = 1) as He by reflexivity.
  assert (len v_abc + 1 < SIZE_MOD) as Hl by concrete_size.
  split; [exact Hwf|]. split; [exact He|]. split; [exact Hl|].
  exact (bytestring_spec v_abc 32 48 junk_ff junk_ff Hwf He Hl).
Defined.

(** Index 3 of the three-byte "abc" is its length: every indexing call
    aborts; index 2 is valid. *)
Lemma indexing_aborts_iff_invalid_witness :
  invalid_index (Some v_abc) 3 ∧
  vec_get (Some v_abc) 3 = Abort ∧
  vec_remove (Some v_abc) 3 = Abort ∧
  vec_swap_remove (Some v_abc) 3 = Abort ∧
  (vec_get (Some v_abc) 2 = Abort → invalid_index (Some v_abc) 2).
Proof.
  destruct (indexing_aborts_iff_invalid (Some v_abc) 3)
    as (_ & Hget & Hrm & Hsw & Hlen & _).
  split; [exact Hlen|].
  split; [exact (proj2 Hget Hlen)|].
  split; [exact (proj2 Hrm Hlen)|].
  split; [exact (proj2 Hsw Hlen)|].
  exact (proj1 (proj1 (proj2 (indexing_aborts_iff_invalid (Some v_abc) 2)))).
Defined.

(** Removing "cd" from "ab", "cd", "ef" keeps the store and the bytes of
    "ab". *)
Lemma shrinking_ops_frame_witness :
  wf v_pairs ∧
  ∃ v', vec_remove (Some v_pairs) 1 = Ret v' ∧
        same_store v_pairs v' ∧
        ∀ k : nat, Z.of_nat k < 1 * elem_size v_pairs →
                   blk_bytes (inner v') !! k = blk_bytes (inner v_pairs) !! k.
Proof.
  assert (wf v_pairs) as Hwf by concrete_wf.
  split; [exact Hwf|].
  eexists. split; [vm_compute; reflexivity|].
  destruct (proj2 (proj2 (shrinking_ops_frame v_pairs)) 1 _
              (or_introl eq_refl)) as [Hstore Hbytes].
  split; [exact Hstore|exact (Hbytes Hwf)].
Defined.

(** Growth from capacity 2 reaches 3, 4, 6, 9, 13. *)
Example forced_growth_from_2 :
  forced_growth (Vector (Block 16 [x00; x00]) 2 0 1)
                (replicate 5 (Fresh 17 junk_ff))
  = [3; 4; 6; 9; 13].
Proof. vm_compute. reflexivity. Qed.

(** A vector of capacity 1 never grows. *)
Example vec_grow_capacity_1 :
  vec_grow (Some (Vector (Block 16 [x61]) 1 1 1)) (Fresh 17 junk_ff)
  = Ret (false, Vector (Block 16 [x61]) 1 1 1).
Proof. vm_compute. reflexivity. Qed.

(** With capacity [2^63] the product wraps to [2^63], its half is below the
    capacity, and growth fails. *)
Example vec_grow_wraps :
  vec_grow (Some (Vector (Block 16 []) (2 ^ 63) 0 0)) (Fresh 17 junk_ff)
  = Ret (false, Vector (Block 16 []) (2 ^ 63) 0 0).
Proof. vm_compute. reflexivity. Qed.

(** After a [vec_resize] to capacity zero the block is freed: the next
    [vec_resize] hands the freed pointer to [reallocarray], and a push
    writes into the freed block. *)
Example run_after_zero_resize :
  run v_abc [OpResize 0 NoMem; OpResize 4 (Fresh 17 junk_ff); OpPush [x64] NoMem]
  = Undef ∧
  run v_abc [OpResize 0 NoMem; OpPop NoMem; OpPush [x64] NoMem] = Undef.
Proof. split; vm_compute; reflexivity. Qed.

(** [vec_to_str] does not look at what [vec_resize] returned: on the full
    "abc", without memory, the zero byte is written past the block. *)
Example vec_to_str_nomem :
  vec_to_str (Some (Some v_abc)) NoMem = Undef.
Proof. vm_compute. reflexivity. Qed.

(** * Further properties *)

(** ** The elements of a vector *)

Lemma slot_Some v j :
  wf v → 0 ≤ j < capacity v →
  ∃ bs, slot v j = Some bs ∧ Z.of_nat (length bs) = elem_size v.
Proof.
  intros [Hlen Hcap Hes Htot Hbytes Hlive] Hj. unfold is_size in *. unfold slot.
  destruct (load _ _ _) as [bs|] eqn:E.
  - exists bs. split; [done|]. by apply load_inv in E as (_ & _ & _ & _ & ?).
  - rewrite load_Some in E by nia. done.
Qed.

Lemma elements_length v : length (elements v) = Z.to_nat (len v).
Proof. unfold elements. by rewrite length_fmap, length_seqZ. Qed.

Lemma elements_lookup v (k : nat) :
  wf v → Z.of_nat k < len v → elements v !! k = slot v (Z.of_nat k).
Proof.
  intros Hwf Hk. unfold elements.
  rewrite list_lookup_fmap, lookup_seqZ_lt by done. simpl.
  assert (0 ≤ Z.of_nat k < capacity v) as Hcap.
  { destruct Hwf as [? _ _ _ _ _]. lia. }
  rewrite Z.add_0_l.
  by destruct (slot_Some v (Z.of_nat k) Hwf Hcap) as (bs & -> & _).
Qed.

(** A list is the list of elements when it has the length and the slots. *)
Lemma elements_eq v (l : list (list byte)) :
  wf v → length l = Z.to_nat (len v) →
  (∀ k : nat, Z.of_nat k < len v → l !! k = slot v (Z.of_nat k)) →
  elements v = l.
Proof.
  intros Hwf Hlen Hl. apply list_eq. intros k.
  destruct (decide (Z.of_nat k < len v)) as [Hk|Hk].
  - by rewrite elements_lookup, Hl.
  - rewrite (lookup_ge_None_2 l) by lia.
    apply lookup_ge_None_2. rewrite elements_length. lia.
Qed.

(** ** Construction: [vec_init] *)

(** X1: [vec_init] returns [NULL] exactly when the allocation of the
    struct fails, the allocator has no memory for the block, or
    [init_capacity * sizeof_type] overflows.  The vector it returns is well
    formed and empty, with the capacity and element size asked for, and
    every slot of its block is zero bytes. *)
Theorem vec_init_spec (init_capacity sizeof_type : Z) (a_vec : bool)
    (a_inner : alloc) :
  is_size init_capacity → is_size sizeof_type →
  (vec_init init_capacity sizeof_type a_vec a_inner = None ↔
   a_vec = false ∨ a_inner = NoMem ∨ SIZE_MOD ≤ init_capacity * sizeof_type) ∧
  (∀ v, vec_init init_capacity sizeof_type a_vec a_inner = Some v →
     wf v ∧ len v = 0 ∧ capacity v = init_capacity ∧
     elem_size v = sizeof_type ∧ elements v = [] ∧
     (∀ j, 0 ≤ j < init_capacity →
           slot v j = Some (replicate (Z.to_nat sizeof_type) x00))).
Proof.
  intros Hc Hs. split.
  - unfold vec_init, calloc. destruct a_vec; simpl; [|split; [intros _; by left|done]].
    destruct (SIZE_MOD <=? init_capacity * sizeof_type) eqn:E.
    + apply Z.leb_le in E. split; [intros _; by right; right|done].
    + apply Z.leb_gt in E. destruct a_inner; split; try done.
      * intros _. by right; left.
      * intros [?|[?|?]]; [done|done|lia].
  - intros v Hinit.
    destruct (vec_init_wf _ _ _ _ _ Hc Hs Hinit) as (Hwf & Hl & Hcap & Hes).
    split_and!; try done.
    { unfold elements. by rewrite Hl. }
    intros j Hj. unfold vec_init, calloc in Hinit.
    destruct a_vec; [|done]. simpl in Hinit.
    destruct (SIZE_MOD <=? _) eqn:E; [done|]. apply Z.leb_gt in E.
    destruct a_inner as [|id junk]; [done|]. injection Hinit as <-.
    unfold slot. simpl. unfold is_size in *.
    rewrite load_Some by (rewrite ?length_replicate; nia). f_equal.
    rewrite drop_replicate, take_replicate. f_equal. nia.
Qed.

(** ** Access: [vec_get] *)

Lemma read_slot_ptr v j :
  wf v → read (inner v) (slot_ptr v j) (elem_size v) = slot v j.
Proof.
  intros [_ _ _ _ _ Hlive]. unfold read, slot_ptr, slot. simpl.
  by rewrite Z.eqb_refl, bload_live.
Qed.

Lemma vec_get_eq v index :
  wf v → 0 ≤ index < len v → vec_get (Some v) index = Ret (slot_ptr v index).
Proof.
  intros Hwf Hi. pose proof Hwf as [Hlen _ _ _ _ _].
  unfold vec_get, vec_validate_idx.
  rewrite (proj2 (Z.ltb_lt index (len v))) by lia. simpl.
  rewrite VEC_ADDR_OF_slot by (done || lia). done.
Qed.

(** X2: on a valid index of a well-formed vector [vec_get] returns the
    pointer at offset [index * elem_size] into the block, without
    wrap-around; the [elem_size] bytes behind it lie inside the block and are
    the element of that index; and the ranges of two different valid indices
    do not overlap. *)
Theorem vec_get_slot (v : vector) (index : Z) :
  wf v → 0 ≤ index < len v →
  vec_get (Some v) index = Ret (Ptr (blk_id (inner v)) (index * elem_size v)) ∧
  0 ≤ index * elem_size v ∧
  index * elem_size v + elem_size v ≤ Z.of_nat (length (blk_bytes (inner v))) ∧
  (∃ bs, read (inner v) (Ptr (blk_id (inner v)) (index * elem_size v))
              (elem_size v) = Some bs ∧
         Z.of_nat (length bs) = elem_size v ∧
         elements v !! Z.to_nat index = Some bs) ∧
  (∀ index', 0 ≤ index' < len v → index' ≠ index →
     index * elem_size v + elem_size v ≤ index' * elem_size v ∨
     index' * elem_size v + elem_size v ≤ index * elem_size v).
Proof.
  intros Hwf Hi. pose proof Hwf as [Hlen Hcap Hes Htot Hbytes Hlive].
  unfold is_size in *. split_and!.
  - by apply vec_get_eq.
  - nia.
  - nia.
  - destruct (slot_Some v index Hwf) as (bs & Hslot & Hbs); [lia|].
    exists bs. split_and!; [|done|].
    + by rewrite <- Hslot, <- read_slot_ptr.
    + rewrite elements_lookup by (done || lia). by rewrite Z2Nat.id by lia.
  - intros index' Hi' Hne. nia.
Qed.

(** ** Pushing, as seen through the elements *)

Lemma elements_snoc v v1 (e : list byte) :
  wf v → wf v1 → len v1 = len v + 1 →
  slot v1 (len v) = Some e →
  (∀ j, 0 ≤ j < len v → slot v1 j = slot v j) →
  elements v1 = elements v ++ [e].
Proof.
  intros Hwf Hwf1 Hl Hnew Hold. pose proof Hwf as [Hlen _ _ _ _ _].
  apply elements_eq; [done| |].
  { rewrite length_app, elements_length. simpl. lia. }
  intros k Hk. destruct (decide (Z.of_nat k < len v)) as [Hlt|Hge].
  - rewrite lookup_app_l by (rewrite elements_length; lia).
    rewrite elements_lookup by done. symmetry. apply Hold. lia.
  - rewrite lookup_app_r by (rewrite elements_length; lia).
    rewrite elements_length.
    replace (k - Z.to_nat (len v))%nat with 0%nat by lia.
    replace (Z.of_nat k) with (len v) by lia. by rewrite Hnew.
Qed.

(** X3: a push that succeeded appends the element to the elements; the
    pointer it returned is the one [vec_get] then returns for the new last
    index, and the element's bytes are read through it. *)
Theorem vec_push_get (v : vector) (element : list byte) (a : alloc)
    (p : ptr) (v1 : vector) :
  wf v → elem_size v ≤ Z.of_nat (length element) →
  vec_push (Some v) element a = Ret (Some p, v1) →
  elements v1 = elements v ++ [take (Z.to_nat (elem_size v)) element] ∧
  vec_get (Some v1) (len v) = Ret p ∧
  read (inner v1) p (elem_size v1) = Some (take (Z.to_nat (elem_size v)) element).
Proof.
  intros Hwf Hel Hpush. pose proof Hwf as [Hlen _ _ _ _ _].
  destruct (vec_push_Some _ _ _ _ _ Hwf Hel Hpush)
    as (-> & Hl1 & He1 & Hnew & Hold & Hwf1).
  split_and!.
  - by apply elements_snoc.
  - apply vec_get_eq; [done|lia].
  - by rewrite read_slot_ptr.
Qed.




(** ** Popping and removing, as seen through the elements *)

(** Cutting the length of a vector cuts its elements. *)
Lemma elements_set_len v l :
  wf v → 0 ≤ l ≤ len v →
  elements (set_len v l) = take (Z.to_nat l) (elements v).
Proof.
  intros Hwf Hl. pose proof Hwf as [Hlen _ _ _ _ _].
  apply elements_eq.
  - apply wf_set_len; [done|lia].
  - rewrite length_take, elements_length. simpl. lia.
  - intros k Hk. simpl in Hk. rewrite lookup_take_lt by lia.
    rewrite elements_lookup by (done || lia). done.
Qed.

Lemma elements_last v e :
  wf v → 0 < len v → slot v (len v - 1) = Some e →
  last (elements v) = Some e ∧
  elements v = take (Z.to_nat (len v - 1)) (elements v) ++ [e].
Proof.
  intros Hwf Hpos Hslot.
  assert (elements v !! Z.to_nat (len v - 1) = Some e) as Hlk.
  { rewrite elements_lookup by (done || lia). by rewrite Z2Nat.id by lia. }
  split.
  - rewrite last_lookup, elements_length.
    by replace (pred (Z.to_nat (len v))) with (Z.to_nat (len v - 1)) by lia.
  - rewrite <- (take_S_r _ _ _ Hlk). symmetry. apply take_ge.
    rewrite elements_length. lia.
Qed.

(** X5: on a well-formed vector that is not empty, [vec_pop] with memory for
    the copy returns the last element in a block of its own and leaves the
    elements before it: the elements were those that remain followed by the
    one returned. *)
Theorem vec_pop_last (v : vector) (id : Z) (junk : nat → byte) :
  wf v → 0 < len v →
  ∃ e v',
    vec_pop (Some v) (Fresh id junk) = Ret (Some (Block id e), v') ∧
    last (elements v) = Some e ∧
    elements v = elements v' ++ [e] ∧
    len v' = len v - 1 ∧ wf v'.
Proof.
  intros Hwf Hpos. pose proof Hwf as [Hlen _ _ _ _ _].
  destruct (vec_pop_nonempty v id junk Hwf Hpos) as (e & Hslot & Hpop).
  destruct (elements_last v e Hwf Hpos Hslot) as [Hlast Hsplit].
  exists e, (set_len v (len v - 1)). split_and!; try done.
  - by rewrite elements_set_len by (done || lia).
  - apply wf_set_len; [done|lia].
Qed.

(** X6: pushing back the block that [vec_pop] returned restores the vector
    as it was before the pop, field by field and byte by byte, without a
    call of the allocator. *)
Theorem vec_pop_push_restores (v : vector) (id : Z) (junk : nat → byte)
    (e : block) (v1 : vector) :
  wf v →
  vec_pop (Some v) (Fresh id junk) = Ret (Some e, v1) →
  ∀ a, vec_push (Some v1) (blk_bytes e) a
       = Ret (Some (slot_ptr v (len v - 1)), v).
Proof.
  intros Hwf Hpop a. pose proof Hwf as [Hlen Hcap Hes Htot Hbytes Hlive].
  assert (0 < len v) as Hpos.
  { destruct (Z.eq_dec (len v) 0) as [H0|]; [|lia].
    by rewrite (vec_pop_empty v _ H0) in Hpop. }
  destruct (vec_pop_nonempty v id junk Hwf Hpos) as (bs & Hslot & Hpop').
  rewrite Hpop' in Hpop. injection Hpop as <- <-. simpl.
  pose proof Hslot as Hload. unfold slot in Hload.
  pose proof (load_inv _ _ _ _ Hload) as (_ & _ & _ & _ & Hbs).
  assert (wf (set_len v (len v - 1))) as Hwf1 by (apply wf_set_len; [done|lia]).
  destruct (vec_push_room (set_len v (len v - 1)) bs a Hwf1)
    as (m & Hst & ->); [simpl; lia..|].
  simpl in Hst. rewrite take_ge in Hst by lia.
  rewrite (store_load_id _ _ _ _ Hload) in Hst. injection Hst as <-.
  unfold pushed, slot_ptr. simpl. f_equal. f_equal.
  destruct v as [[bid m] c l es]. unfold set_len, set_bytes, set_inner. simpl.
  f_equal. lia.
Qed.

(** X7: on a valid index [vec_remove] deletes the element of that index
    from the list of elements and keeps the others in their order. *)
Theorem vec_remove_elements (v : vector) (index : Z) :
  wf v → 0 ≤ index < len v →
  ∃ v', vec_remove (Some v) index = Ret v' ∧ wf v' ∧
        elements v' = delete (Z.to_nat index) (elements v).
Proof.
  intros Hwf Hi. pose proof Hwf as [Hlen _ _ _ _ _].
  destruct (vec_remove_eq v index Hwf Hi) as (m & Hm & -> & _).
  destruct (removed_slots v index m Hwf Hi Hm) as (Hlow & Hshift & _).
  assert (wf (set_len (set_bytes v m) (len v - 1))) as Hwf'.
  { apply wf_set_len; [|simpl; lia].
    apply wf_set_bytes; [done|]. by eapply memmove_length. }
  eexists. split; [done|]. split; [done|].
  apply elements_eq; [done| |].
  - rewrite length_delete, elements_length; simpl; [lia|].
    apply lookup_lt_is_Some. rewrite elements_length. lia.
  - intros k Hk. simpl in Hk.
    destruct (decide (Z.of_nat k < index)) as [Hlt|Hge].
    + rewrite list_lookup_delete_lt by lia.
      rewrite elements_lookup by (done || lia). symmetry. apply Hlow. lia.
    + rewrite list_lookup_delete_ge by lia.
      rewrite elements_lookup by (done || lia).
      replace (Z.of_nat (S k)) with (Z.of_nat k + 1) by lia.
      symmetry. apply Hshift. lia.
Qed.

(** X8: on a valid index [vec_swap_remove] overwrites the element of that
    index with the last element and drops the last position; the other
    elements stay where they are. *)
Theorem vec_swap_remove_elements (v : vector) (index : Z) :
  wf v → 0 ≤ index < len v →
  ∃ v' e, vec_swap_remove (Some v) index = Ret v' ∧ wf v' ∧
          last (elements v) = Some e ∧
          elements v'
          = take (Z.to_nat (len v - 1)) (<[Z.to_nat index := e]> (elements v)).
Proof.
  intros Hwf Hi. pose proof Hwf as [Hlen _ _ _ _ _].
  destruct (vec_swap_remove_eq v index Hwf Hi) as (m & Hm & -> & _).
  destruct (swap_removed_slots v index m Hwf Hi Hm) as (Hmoved & Hrest).
  assert (wf (set_len (set_bytes v m) (len v - 1))) as Hwf'.
  { apply wf_set_len; [|simpl; lia].
    apply wf_set_bytes; [done|]. by eapply memmove_length. }
  destruct (slot_Some v (len v - 1) Hwf) as (e & Hslot & _); [lia|].
  destruct (elements_last v e Hwf) as [Hlast _]; [lia|done|].
  eexists _, e. split; [done|]. split; [done|]. split; [done|].
  apply elements_eq; [done| |].
  - rewrite length_take, length_insert, elements_length. simpl. lia.
  - intros k Hk. simpl in Hk. rewrite lookup_take_lt by lia.
    destruct (decide (Z.of_nat k = index)) as [Heq|Hne].
    + replace (Z.to_nat index) with k by lia.
      rewrite list_lookup_insert_eq by (rewrite elements_length; lia).
      rewrite Heq, <- Hslot. symmetry. apply Hmoved.
    + rewrite list_lookup_insert_ne by lia.
      rewrite elements_lookup by (done || lia). symmetry. by apply Hrest.
Qed.

(** ** Resizing and growing, as seen through the elements *)

(** X9: a [vec_resize] that succeeded keeps the first [num_elements]
    elements and drops the rest; a [vec_grow] that succeeded keeps all
    elements; with elements of at least one byte, a [vec_grow] that failed
    left the vector as it was, every field and every byte. *)
Theorem vec_resize_elements (v : vector) (num_elements : Z) (a : alloc) :
  wf v → is_size num_elements →
  (∀ v', vec_resize (Some v) num_elements a = Ret (true, v') →
         elements v' = take (Z.to_nat num_elements) (elements v)) ∧
  (∀ v', vec_grow (Some v) a = Ret (true, v') → elements v' = elements v) ∧
  (0 < elem_size v → ∀ v', vec_grow (Some v) a = Ret (false, v') → v' = v).
Proof.
  intros Hwf Hn. pose proof Hwf as [Hlen Hcap _ _ _ _]. unfold is_size in Hn.
  assert (∀ n v', is_size n → vec_resize (Some v) n a = Ret (true, v') →
                  elements v' = take (Z.to_nat n) (elements v)) as Hresize.
  { intros n v' Hn' Hre. unfold is_size in Hn'.
    destruct (vec_resize_Ret _ _ _ _ _ Hwf Hn' Hre)
      as (Hwf' & Hc' & He' & Hl' & Hslots).
    apply elements_eq; [done| |].
    - rewrite length_take, elements_length. lia.
    - intros k Hk. rewrite lookup_take_lt by lia.
      rewrite elements_lookup by (done || lia). symmetry. apply Hslots. lia. }
  assert (is_size (capacity v)) as Hc by (unfold is_size; lia).
  split_and!; [intros v'; by apply Hresize| |].
  - intros v' Hgrow.
    destruct (vec_grow_Ret _ _ _ _ Hc Hgrow) as (H2 & Hs & Hc' & Hlt & _).
    rewrite vec_grow_eq in Hgrow by done.
    destruct (decide _) as [_|Hno]; [|done].
    assert (is_size (capacity v * 3 / 2)) as Hnew
      by (apply grow_target_size; lia).
    rewrite (Hresize _ _ Hnew Hgrow).
    apply take_ge. rewrite elements_length. lia.
  - intros Hes v' Hgrow. by apply (vec_grow_failed_nonzero v a v').
Qed.

(** ** Memory safety and the layout of the block *)

(** With elements of at least one byte and no request for a capacity of
    zero, [reallocarray] is never asked for zero bytes, and a call that
    returns leaves the vector well formed. *)
Lemma step_wf v o v' :
  wf v → 0 < elem_size v → op_ok o → op_nonzero o → step v o = Ret v' →
  wf v' ∧ elem_size v' = elem_size v.
Proof.
  intros Hwf Hes Hok Hnz Hstep.
  destruct (step_wf_cases v o v' Hwf Hok Hstep) as [?|[_ [?|[a ->]]]];
    [done|lia|by destruct Hnz].
Qed.

Lemma run_wf ops : ∀ v v',
  wf v → 0 < elem_size v → Forall op_ok ops → Forall op_nonzero ops →
  run v ops = Ret v' → wf v' ∧ elem_size v' = elem_size v.
Proof.
  induction ops as [|o ops IH]; intros v v' Hwf Hes Hok Hnz; simpl.
  { by intros [= <-]. }
  apply Forall_cons in Hok as [Ho Hops]. apply Forall_cons in Hnz as [Hn Hnzs].
  destruct (step v o) as [w| |] eqn:Hstep; try done. simpl. intros Hrun.
  destruct (step_wf v o w Hwf Hes Ho Hn Hstep) as [Hwf1 He1].
  rewrite <- He1. apply IH; [done|lia|done..].
Qed.




(** X11: on a well-formed vector with elements of at least one byte, after
    whatever sequence of calls without a [vec_resize] to capacity zero
    returns, the element size is the one the vector had, the block has not
    been freed and has exactly [capacity * elem_size] bytes, a size that did
    not overflow, and the length is within the capacity. *)
Theorem run_keeps_layout (v : vector) (ops : list op) (v' : vector) :
  wf v → 0 < elem_size v →
  Forall op_ok ops → Forall op_nonzero ops → run v ops = Ret v' →
  elem_size v' = elem_size v ∧
  blk_freed (inner v') = false ∧
  Z.of_nat (length (blk_bytes (inner v'))) = capacity v' * elem_size v' ∧
  capacity v' * elem_size v' < SIZE_MOD ∧
  0 ≤ len v' ≤ capacity v'.
Proof.
  intros Hwf Hes Hok Hnz Hrun.
  by destruct (run_wf ops v v' Hwf Hes Hok Hnz Hrun) as [[? ? ? ? ? ?] ?].
Qed.

(** ** Capacities that cannot grow *)

Lemma step_capacity_stuck v o v' :
  0 ≤ capacity v < 2 → no_resize o → step v o = Ret v' →
  capacity v' = capacity v.
Proof.
  intros Hc Hno.
  assert (is_size (capacity v)) as Hsize by (pose proof SIZE_MOD_val; unfold is_size; lia).
  assert (∀ a, vec_grow (Some v) a = Ret (false, v)) as Hgrow.
  { intros a. rewrite vec_grow_eq by done.
    destruct (decide _) as [[? _]|_]; [lia|done]. }
  destruct o as [a|n a|element a|a|i|i|]; simpl in *; try done.
  - rewrite Hgrow. simpl. by intros [= <-].
  - unfold vec_push. simpl. destruct (capacity v <=? len v).
    + rewrite Hgrow. simpl. by intros [= <-].
    + simpl. destruct (load _ _ _); [|done]. simpl.
      destruct (bstore _ _ _); [|done]. simpl. by intros [= <-].
  - destruct (vec_pop (Some v) a) as [[r w]| |] eqn:E; try done.
    simpl. intros [= <-]. by apply vec_pop_Ret in E as [->|[_ ->]].
  - by intros (_ & m & -> & _)%vec_remove_frame.
  - by intros (_ & m & -> & _)%vec_swap_remove_frame.
  - by intros [= <-].
Qed.

(** X12: a vector of capacity 0 or 1 never gets a larger capacity from
    [vec_grow] or [vec_push], whatever memory there is: after any sequence
    of calls other than [vec_resize] the capacity is the same, and a push on
    the full vector returns [NULL] and changes nothing. *)
Theorem small_capacity_never_grows (v : vector) (ops : list op) (v' : vector) :
  0 ≤ capacity v < 2 → Forall no_resize ops → run v ops = Ret v' →
  capacity v' = capacity v ∧
  (∀ element a, capacity v' ≤ len v' →
                vec_push (Some v') element a = Ret (None, v')).
Proof.
  intros Hc Hno Hrun.
  assert (capacity v' = capacity v) as Hsame.
  { revert v Hc Hrun. induction Hno as [|o ops Ho Hops IH]; intros v Hc; simpl.
    { by intros [= <-]. }
    destruct (step v o) as [w| |] eqn:Hstep; try done. simpl. intros Hrun.
    pose proof (step_capacity_stuck _ _ _ Hc Ho Hstep) as Hw.
    rewrite <- Hw. apply IH; [lia|done]. }
  split; [done|]. intros element a Hfull.
  unfold vec_push. simpl. rewrite (proj2 (Z.leb_le _ _) Hfull).
  rewrite vec_grow_eq by (pose proof SIZE_MOD_val; unfold is_size; lia).
  destruct (decide _) as [[? _]|_]; [lia|done].
Qed.

(** ** Leaving the vector: [vec_leak], [vec_to_str], [vec_free] *)

(** The slots [0 .. n - 1] of a block, one after the other, are its first
    [n * es] bytes. *)
Lemma concat_slots (m : list byte) (es : Z) (n : nat) :
  0 ≤ es → Z.of_nat n * es ≤ Z.of_nat (length m) →
  concat ((λ j, default [] (load m (j * es) es)) <$> seqZ 0 (Z.of_nat n))
  = take (Z.to_nat (Z.of_nat n * es)) m.
Proof.
  intros Hes. induction n as [|n IH]; intros Hn.
  { by rewrite Z.mul_0_l, take_0. }
  assert (Z.of_nat n * es ≤ Z.of_nat (length m)) as Hn' by nia.
  rewrite Nat2Z.inj_succ, <- Z.add_1_r in *.
  rewrite seqZ_app, fmap_app, concat_app, (IH Hn') by lia. simpl.
  rewrite Z.add_0_l, load_Some by nia. simpl. rewrite app_nil_r.
  rewrite take_take_drop. f_equal. nia.
Qed.

(** X13: [vec_leak] on a well-formed vector hands out the block as it is
    and leaves the handle [NULL]: the block has [capacity * elem_size] bytes,
    not [len * elem_size], and its first [len * elem_size] bytes are the
    elements one after the other. *)
Theorem vec_leak_block (v : vector) :
  wf v →
  ∃ b, vec_leak (Some (Some v)) = Ret (b, None) ∧
       blk_id b = blk_id (inner v) ∧
       Z.of_nat (length (blk_bytes b)) = capacity v * elem_size v ∧
       take (Z.to_nat (len v * elem_size v)) (blk_bytes b) = concat (elements v).
Proof.
  intros [Hlen Hcap Hes Htot Hbytes Hlive]. unfold is_size in *.
  exists (inner v). split_and!; try done.
  unfold elements, slot.
  rewrite <- (Z2Nat.id (len v)) at 2 by lia.
  rewrite concat_slots by nia. f_equal. lia.
Qed.

(** X14: [vec_to_str] does not look at what [vec_resize] returned.  On a
    vector of bytes, when the resize gets no memory: with room left the old
    block is returned, all its [capacity] bytes, with a zero byte written
    after the elements; on a full vector the zero byte is written past the
    end of the block. *)
Theorem vec_to_str_no_memory (v : vector) :
  wf v → elem_size v = 1 →
  (len v < capacity v →
   vec_to_str (Some (Some v)) NoMem
   = Ret (Block (blk_id (inner v))
                (take (Z.to_nat (len v)) (blk_bytes (inner v)) ++ [x00] ++
                 drop (S (Z.to_nat (len v))) (blk_bytes (inner v))),
          None)) ∧
  (len v = capacity v → vec_to_str (Some (Some v)) NoMem = Undef).
Proof.
  intros [Hlen Hcap Hes Htot Hbytes Hlive] He. rewrite He in *.
  assert (wrap (wrap (len v + 1) - 1) = len v) as Hidx.
  { pose proof SIZE_MOD_val as HM.
    destruct (Z.eq_dec (len v + 1) SIZE_MOD) as [Hmax|Hlt].
    - unfold wrap at 2. rewrite Hmax, Z.mod_same by lia.
      unfold wrap. replace (0 - 1) with (len v + -1 * SIZE_MOD) by lia.
      rewrite Z.mod_add by lia. apply Z.mod_small. lia.
    - rewrite (wrap_small (len v + 1)) by (unfold is_size; lia).
      replace (len v + 1 - 1) with (len v) by lia.
      apply wrap_small. unfold is_size. lia. }
  unfold vec_to_str. rewrite vec_resize_eq. split; intros Hl.
  - assert (reallocarray (inner v) (wrap (len v + 1)) (elem_size v) NoMem
            = Ret ReallocKept) as ->.
    { rewrite (wrap_small (len v + 1)) by (unfold is_size; lia).
      destruct (reallocarray_nonzero (inner v) (len v + 1) (elem_size v) NoMem
                  Hlive) as [[E _]|(p & _ & _ & ?)]; [lia|done..]. }
    simpl. rewrite Hidx, bstore_live, store_Some by (done || simpl; lia). simpl.
    by rewrite Nat.add_1_r.
  - destruct (reallocarray _ _ _ _) as [[p| |]| |] eqn:E; try done; simpl.
    + by apply reallocarray_Moved in E as (_ & _ & ? & _).
    + rewrite Hidx, bstore_live by done.
      destruct (store _ _ _) as [m|] eqn:Es; [|done].
      apply store_inv in Es as (_ & Es & _). simpl in Es. lia.
    + unfold reallocarray in E. rewrite Hlive in E.
      destruct (SIZE_MOD <=? _); [done|].
      destruct (_ =? 0); done.
Qed.


(** * Instances of the further properties *)

Lemma vec_init_spec_witness :
  is_size 2 ∧ is_size 1 ∧
  ∃ v, vec_init 2 1 true (Fresh 16 junk_ff) = Some v ∧
       elements v = [] ∧ slot v 1 = Some [x00].
Proof.
  assert (is_size 2) as Hc by concrete_size.
  assert (is_size 1) as Hs by concrete_size.
  split; [exact Hc|]. split; [exact Hs|].
  assert (vec_init 2 1 true (Fresh 16 junk_ff) = Some v_empty2) as Hinit
    by (vm_compute; reflexivity).
  exists v_empty2. split; [exact Hinit|].
  destruct (proj2 (vec_init_spec 2 1 true (Fresh 16 junk_ff) Hc Hs)
              v_empty2 Hinit) as (_ & _ & _ & _ & Hels & Hzero).
  split; [exact Hels|]. apply Hzero. lia.
Defined.

Lemma vec_get_slot_witness :
  wf v_pairs ∧ 0 ≤ 1 < len v_pairs ∧
  vec_get (Some v_pairs) 1 = Ret (Ptr 16 2).
Proof.
  assert (wf v_pairs) as Hwf by concrete_wf.
  assert (0 ≤ 1 < len v_pairs) as Hi by (simpl; lia).
  split; [exact Hwf|]. split; [exact Hi|].
  exact (proj1 (vec_get_slot v_pairs 1 Hwf Hi)).
Defined.

Lemma vec_push_get_witness :
  wf v_pairs ∧ elem_size v_pairs ≤ Z.of_nat (length [x67; x68]) ∧
  ∃ p v1,
    vec_push (Some v_pairs) [x67; x68] NoMem = Ret (Some p, v1) ∧
    elements v1 = elements v_pairs ++ [[x67; x68]] ∧
    vec_get (Some v1) (len v_pairs) = Ret p.
Proof.
  assert (wf v_pairs) as Hwf by concrete_wf.
  assert (elem_size v_pairs ≤ Z.of_nat (length [x67; x68])) as Hel
    by (simpl; lia).
  split; [exact Hwf|]. split; [exact Hel|].
  eexists _, _. split; [vm_compute; reflexivity|].
  destruct (vec_push_get v_pairs [x67; x68] NoMem (Ptr 16 6)
              (Vector (Block 16 (list_byte_of_string "abcdefgh")) 4 4 2)
              Hwf Hel) as (Hels & Hget & _); [vm_compute; reflexivity|].
  split; [exact Hels|exact Hget].
Defined.


Lemma vec_pop_last_witness :
  wf v_pairs ∧ 0 < len v_pairs ∧
  ∃ e v',
    vec_pop (Some v_pairs) (Fresh 48 junk_ff) = Ret (Some (Block 48 e), v') ∧
    last (elements v_pairs) = Some e ∧
    elements v_pairs = elements v' ++ [e] ∧
    len v' = len v_pairs - 1 ∧ wf v'.
Proof.
  assert (wf v_pairs) as Hwf by concrete_wf.
  assert (0 < len v_pairs) as Hpos by (simpl; lia).
  split; [exact Hwf|]. split; [exact Hpos|].
  exact (vec_pop_last v_pairs 48 junk_ff Hwf Hpos).
Defined.

Lemma vec_pop_push_restores_witness :
  wf v_pairs ∧
  ∃ e v1,
    vec_pop (Some v_pairs) (Fresh 48 junk_ff) = Ret (Some e, v1) ∧
    vec_push (Some v1) (blk_bytes e) NoMem
    = Ret (Some (slot_ptr v_pairs (len v_pairs - 1)), v_pairs).
Proof.
  assert (wf v_pairs) as Hwf by concrete_wf.
  split; [exact Hwf|].
  eexists _, _. split; [vm_compute; reflexivity|].
  apply (vec_pop_push_restores v_pairs 48 junk_ff _ _ Hwf).
  vm_compute. reflexivity.
Defined.

Lemma vec_remove_elements_witness :
  wf v_pairs ∧ 0 ≤ 0 < len v_pairs ∧
  ∃ v', vec_remove (Some v_pairs) 0 = Ret v' ∧ wf v' ∧
        elements v' = delete (Z.to_nat 0) (elements v_pairs).
Proof.
  assert (wf v_pairs) as Hwf by concrete_wf.
  assert (0 ≤ 0 < len v_pairs) as Hi by (simpl; lia).
  split; [exact Hwf|]. split; [exact Hi|].
  exact (vec_remove_elements v_pairs 0 Hwf Hi).
Defined.

Lemma vec_swap_remove_elements_witness :
  wf v_pairs ∧ 0 ≤ 0 < len v_pairs ∧
  ∃ v' e, vec_swap_remove (Some v_pairs) 0 = Ret v' ∧ wf v' ∧
          last (elements v_pairs) = Some e ∧
          elements v'
          = take (Z.to_nat (len v_pairs - 1))
                 (<[Z.to_nat 0 := e]> (elements v_pairs)).
Proof.
  assert (wf v_pairs) as Hwf by concrete_wf.
  assert (0 ≤ 0 < len v_pairs) as Hi by (simpl; lia).
  split; [exact Hwf|]. split; [exact Hi|].
  exact (vec_swap_remove_elements v_pairs 0 Hwf Hi).
Defined.

Lemma vec_resize_elements_witness :
  wf v_abc ∧ is_size 2 ∧
  (∀ v', vec_resize (Some v_abc) 2 (Fresh 32 junk_ff) = Ret (true, v') →
         elements v' = take (Z.to_nat 2) (elements v_abc)) ∧
  (0 < elem_size v_abc →
   ∀ v', vec_grow (Some v_abc) NoMem = Ret (false, v') → v' = v_abc).
Proof.
  assert (wf v_abc) as Hwf by concrete_wf.
  assert (is_size 2) as Hn by concrete_size.
  split; [exact Hwf|]. split; [exact Hn|]. split.
  - exact (proj1 (vec_resize_elements v_abc 2 (Fresh 32 junk_ff) Hwf Hn)).
  - exact (proj2 (proj2 (vec_resize_elements v_abc 2 NoMem Hwf Hn))).
Defined.


Lemma run_keeps_layout_witness :
  wf v_empty2 ∧ 0 < elem_size v_empty2 ∧
  Forall op_ok ops_example ∧ Forall op_nonzero ops_example ∧
  run v_empty2 ops_example = Ret (Vector (Block 19 [x62]) 1 0 1) ∧
  elem_size (Vector (Block 19 [x62]) 1 0 1) = elem_size v_empty2.
Proof.
  assert (wf v_empty2) as Hwf by concrete_wf.
  assert (0 < elem_size v_empty2) as Hes by (simpl; lia).
  assert (Forall op_ok ops_example) as Hok.
  { unfold ops_example. repeat constructor; concrete_size. }
  assert (Forall op_nonzero ops_example) as Hnz.
  { unfold ops_example. repeat constructor; simpl; lia. }
  assert (run v_empty2 ops_example = Ret (Vector (Block 19 [x62]) 1 0 1))
    as Hrun by (vm_compute; reflexivity).
  split; [exact Hwf|]. split; [exact Hes|]. split; [exact Hok|].
  split; [exact Hnz|]. split; [exact Hrun|].
  exact (proj1 (run_keeps_layout v_empty2 ops_example _ Hwf Hes Hok Hnz Hrun)).
Defined.

Lemma small_capacity_never_grows_witness :
  0 ≤ capacity v_one < 2 ∧ Forall no_resize ops_small ∧
  run v_one ops_small = Ret (Vector (Block 16 [x61]) 1 1 1) ∧
  capacity (Vector (Block 16 [x61]) 1 1 1) = capacity v_one.
Proof.
  assert (0 ≤ capacity v_one < 2) as Hc by (simpl; lia).
  assert (Forall no_resize ops_small) as Hno.
  { unfold ops_small. repeat constructor. }
  assert (run v_one ops_small = Ret (Vector (Block 16 [x61]) 1 1 1))
    as Hrun by (vm_compute; reflexivity).
  split; [exact Hc|]. split; [exact Hno|]. split; [exact Hrun|].
  exact (proj1 (small_capacity_never_grows v_one ops_small _ Hc Hno Hrun)).
Defined.

Lemma vec_leak_block_witness :
  wf v_pairs ∧
  ∃ b, vec_leak (Some (Some v_pairs)) = Ret (b, None) ∧
       blk_id b = blk_id (inner v_pairs) ∧
       Z.of_nat (length (blk_bytes b)) = capacity v_pairs * elem_size v_pairs ∧
       take (Z.to_nat (len v_pairs * elem_size v_pairs)) (blk_bytes b)
       = concat (elements v_pairs).
Proof.
  assert (wf v_pairs) as Hwf by concrete_wf.
  split; [exact Hwf|]. exact (vec_leak_block v_pairs Hwf).
Defined.

Lemma vec_to_str_no_memory_witness :
  wf v_abc ∧ elem_size v_abc = 1 ∧ len v_abc = capacity v_abc ∧
  vec_to_str (Some (Some v_abc)) NoMem = Undef.
Proof.
  assert (wf v_abc) as Hwf by concrete_wf.
  split; [exact Hwf|]. split; [reflexivity|]. split; [reflexivity|].
  exact (proj2 (vec_to_str_no_memory v_abc Hwf eq_refl) eq_refl).
Defined.
